(** * quranc: the bbolt read-through cache in front of the quran.com client

    A shallow embedding of [client.go]: the data types of the client, the
    request options, the cache-key derivation, the cache middleware
    [boltCacheMiddleware] with its constructor [BoltCache], and the
    methods of [Client]: the requests they build and what they make of
    the response.

    Conventions.
    - Go [int] is [Z]; [string] and [[]byte] are [string] (a Rocq string is a
      list of bytes, so the conversion [[]byte(s)] is the identity).
    - A Go function returning [(T, error)] returns a pair [T * option error];
      [None] is the nil error.
    - [[]int] slices live in an explicit heap, because [versesReqOpt.key]
      sorts the caller's slices in place; every other slice is only ever
      read and is modelled by its contents, a [list].
    - The libraries the code calls but does not contain (package sort,
      encoding/gob, the wrapped [QuranAPI]) are interfaces: type classes
      with their laws stated separately.  The bbolt store is modelled from
      its documented contract.                                            *)

From Stdlib Require Import ZArith Ascii String DecimalString DecimalZ DecimalPos Lia.
From stdpp Require Import gmap strings list sorting.

Local Open Scope string_scope.
Local Open Scope list_scope.
Local Open Scope Z_scope.

(** ** Client data types *)

Abbreviation bytes := string.

Record Recitation := {
  Recitation_ID : Z;
  Recitation_Style : string;
  Recitation_ReciterNameEng : string;
  Recitation_ReciterNameTranslated : string }.

Record Translation := {
  Translation_ID : Z;
  Translation_AuthorName : string;
  Translation_LanguageName : string;
  Translation_Name : string;
  Translation_Slug : string }.

Record TranslatedName := {
  TranslatedName_LanguageName : string;
  TranslatedName_Name : string }.

Record Language := {
  Language_ID : Z;
  Language_Name : string;
  Language_IsoCode : string;
  Language_NativeName : string;
  Language_Direction : string;
  Language_TranslatedNames : list TranslatedName }.

Record Tafsir := {
  Tafsir_ID : Z;
  Tafsir_AuthorName : string;
  Tafsir_Slug : string;
  Tafsir_Name : string;
  Tafsir_LanguageName : string }.

Record ChapterPages := { Pages_Start : Z; Pages_End : Z }.

Record Chapter := {
  Chapter_ID : Z;
  Chapter_ChapterNumber : Z;
  Chapter_BismillahPre : bool;
  Chapter_RevelationOrder : Z;
  Chapter_RevelationPlace : string;
  Chapter_NameComplex : string;
  Chapter_NameArabic : string;
  Chapter_NameSimple : string;
  Chapter_VersesCount : Z;
  Chapter_Pages : ChapterPages;
  Chapter_TranslatedName : TranslatedName }.

Record apiChapter := {
  apiChapter_ID : Z;
  apiChapter_ChapterNumber : Z;
  apiChapter_BismillahPre : bool;
  apiChapter_RevelationOrder : Z;
  apiChapter_RevelationPlace : string;
  apiChapter_NameArabic : string;
  apiChapter_NameComplex : string;
  apiChapter_NameSimple : string;
  apiChapter_VersesCount : Z;
  apiChapter_Pages : list Z;
  apiChapter_TranslatedName : TranslatedName }.

Record ChapterInfo := {
  ChapterInfo_ChapterID : Z;
  ChapterInfo_Text : string;
  ChapterInfo_Source : string;
  ChapterInfo_ShortText : string;
  ChapterInfo_LanguageName : string }.

Record Resource := {
  Resource_ID : Z;
  Resource_LanguageName : string;
  Resource_Text : string;
  Resource_ResourceName : string;
  Resource_ResourceID : Z }.

Record WordAudio := { WordAudio_URL : string }.

Record Word := {
  Word_ID : Z;
  Word_Position : Z;
  Word_TextMadani : string;
  Word_TextIndopak : string;
  Word_TextSimple : string;
  Word_VerseKey : string;
  Word_ClassName : string;
  Word_LineNumber : Z;
  Word_PageNumber : Z;
  Word_Code : string;
  Word_CodeV3 : string;
  Word_CharType : string;
  Word_Audio : WordAudio;
  Word_Translation : Resource;
  Word_Transliteration : Resource }.

Record VerseAudio := {
  VerseAudio_URL : string;
  VerseAudio_Duration : Z;
  VerseAudio_Segments : list (list string);
  VerseAudio_Format : string }.

Record MediaContent := {
  MediaContent_URL : string;
  MediaContent_EmbedText : string;
  MediaContent_Provider : string;
  MediaContent_AuthorName : string }.

Record Verse := {
  Verse_ID : Z;
  Verse_VerseNumber : Z;
  Verse_ChapterID : Z;
  Verse_VerseKey : string;
  Verse_TextMadani : string;
  Verse_TextIndopak : string;
  Verse_TextSimple : string;
  Verse_JuzNumber : Z;
  Verse_HizbNumber : Z;
  Verse_RubNumber : Z;
  Verse_Sajdah : string;
  Verse_SajdahNumber : Z;
  Verse_PageNumber : Z;
  Verse_Audio : VerseAudio;
  Verse_Translations : list Resource;
  Verse_MediaContents : list MediaContent;
  Verse_Words : list Word }.

Record JuzMapping := {
  JuzMapping_ChapterID : Z;
  JuzMapping_StartVerse : Z;
  JuzMapping_EndVerse : Z }.

Record Juz := {
  Juz_ID : Z;
  Juz_JuzNumber : Z;
  Juz_VerseMapping : list JuzMapping }.

(** [VerseTafsir.VerseKey] is an [interface{}] filled by the JSON decoder;
    only the shape of the dynamic value is kept. *)
Inductive anyValue :=
| AnyNil
| AnyBool (b : bool)
| AnyNumber (repr : string)
| AnyString (s : string)
| AnyComposite (repr : string).

Record VerseTafsir := {
  VerseTafsir_ID : Z;
  VerseTafsir_Text : string;
  VerseTafsir_VerseID : Z;
  VerseTafsir_LanguageName : string;
  VerseTafsir_ResourceName : string;
  VerseTafsir_VerseKey : anyValue }.

Record SearchRequest := {
  SearchRequest_Query : string;
  SearchRequest_Language : string;
  SearchRequest_Page : Z;
  SearchRequest_Size : Z }.

Record SearchVerse := {
  SearchVerse_ID : Z;
  SearchVerse_VerseNumber : Z;
  SearchVerse_ChapterID : Z;
  SearchVerse_VerseKey : string;
  SearchVerse_TextMadani : string;
  SearchVerse_Words : list Word;
  SearchVerse_Translations : list Resource }.

Record SearchResponse := {
  SearchResponse_Query : string;
  SearchResponse_TotalCount : Z;
  SearchResponse_Took : Z;
  SearchResponse_CurrentPage : Z;
  SearchResponse_TotalPages : Z;
  SearchResponse_PerPage : Z;
  SearchResponse_Results : list SearchVerse }.

(** ** Errors *)

(** The error values that can flow through the middleware: the sentinel
    errors of the store, the end-of-input error of the decoder, any other
    codec error, errors built by [fmt.Errorf], and whatever the wrapped
    API reports. *)
Inductive error :=
| ErrDatabaseNotOpen
| ErrDatabaseReadOnly
| ErrBucketNameRequired
| ErrKeyRequired
| ErrKeyTooLarge
| ErrValueTooLarge
| ErrIncompatibleValue
| io_EOF
| ErrGob (msg : string)
| Errorf (msg : string)
| ErrUpstream (msg : string).

Definition error_Error (e : error) : string :=
  match e with
  | ErrDatabaseNotOpen => "database not open"
  | ErrDatabaseReadOnly => "database is in read-only mode"
  | ErrBucketNameRequired => "bucket name required"
  | ErrKeyRequired => "key required"
  | ErrKeyTooLarge => "key too large"
  | ErrValueTooLarge => "value too large"
  | ErrIncompatibleValue => "incompatible value"
  | io_EOF => "EOF"
  | ErrGob msg => msg
  | Errorf msg => msg
  | ErrUpstream msg => msg
  end.

(** A computation that may panic (a nil bucket dereference, an index out
    of range). *)
Inductive outcome (A : Type) :=
| Done (a : A)
| Panic (msg : string).
Arguments Done {A} a.
Arguments Panic {A} msg.

Definition obind {A B} (x : outcome A) (f : A -> outcome B) : outcome B :=
  match x with
  | Done a => f a
  | Panic msg => Panic msg
  end.

#[global] Instance outcome_ret : MRet outcome := fun A a => Done a.
#[global] Instance outcome_bind : MBind outcome := fun A B f x => obind x f.

(** ** Shared helpers: [itoa] and [join] *)

Definition itoa (i : Z) : string := NilZero.string_of_int (Z.to_int i).

Definition join (ss : list string) : string := String.concat ":" ss.

(** ** Package sort

    [sort.Slice] and [sort.Ints] rearrange a slice by a user-supplied
    [less]; the algorithm is the library's and is not stable.  The code is
    verified against the interface; [insertionSort], the routine the
    library itself runs on short ranges, is the reference instance. *)

Class Sort := {
  sort_Slice : forall {A : Type}, (A -> A -> bool) -> list A -> list A }.

Class SortLaws `{Sort} : Prop := {
  sort_Slice_perm : forall (A : Type) (less : A -> A -> bool) (x : list A),
    sort_Slice less x ≡ₚ x;
  sort_Slice_sorted : forall (A : Type) (key : A -> Z) (x : list A),
    Sorted (fun a b => key a <= key b)
           (sort_Slice (fun a b => key a <? key b) x) }.

Fixpoint insertSorted {A : Type} (less : A -> A -> bool) (a : A) (x : list A) : list A :=
  match x with
  | [] => [a]
  | b :: x' => if less a b then a :: b :: x' else b :: insertSorted less a x'
  end.

Definition insertionSort {A : Type} (less : A -> A -> bool) (x : list A) : list A :=
  fold_left (fun acc a => insertSorted less a acc) x [].

(** ** Integer slices and the heap that backs them

    A [[]int] is a window [off, off+len) onto a backing array; all backing
    arrays are laid out in one [heap].  Two slices alias when their windows
    intersect.  The nil slice is the empty window. *)

Abbreviation heap := (list Z).

Record slice := { slice_off : nat; slice_len : nat }.

Definition nilSlice : slice := {| slice_off := 0; slice_len := 0 |}.

Definition slice_read (h : heap) (s : slice) : list Z :=
  take (slice_len s) (drop (slice_off s) h).

Definition slice_write (h : heap) (s : slice) (x : list Z) : heap :=
  take (slice_off s) h ++ x ++ drop (slice_off s + slice_len s) h.

(** [sort.Ints(x)]: sorts the window of [x] in place. *)
Definition sort_Ints `{Sort} (x : slice) (h : heap) : heap :=
  slice_write h x (sort_Slice Z.ltb (slice_read h x)).

Definition slice_wf (h : heap) (s : slice) : Prop :=
  (slice_off s + slice_len s <= length h)%nat.

Definition slice_disjoint (s1 s2 : slice) : Prop :=
  (slice_off s1 + slice_len s1 <= slice_off s2)%nat \/
  (slice_off s2 + slice_len s2 <= slice_off s1)%nat.

(** ** Request options *)

Record reqOpt := { reqOpt_languageID : Z }.

Definition ReqOptFn := reqOpt -> reqOpt.

Definition LanguageID (id : Z) : ReqOptFn :=
  fun opt => {| reqOpt_languageID := id |}.

(** [var opt reqOpt; for _, o := range reqOpts { opt = o(opt) }] *)
Definition applyOpts {O : Type} (zero : O) (reqOpts : list (O -> O)) : O :=
  fold_left (fun opt o => o opt) reqOpts zero.

Definition reqOpt_zero : reqOpt := {| reqOpt_languageID := 0 |}.

(** The option bag of [Verses].  With [ints := slice] it is the Go struct
    (two slice headers); with [ints := list Z] it is the struct as the
    encoder sees it, the slices replaced by their contents. *)
Record versesReqOptOf (ints : Type) := {
  versesReqOpt_Language : string;
  versesReqOpt_Recitation : Z;
  versesReqOpt_TextType : string;
  versesReqOpt_Page : Z;
  versesReqOpt_Limit : Z;
  versesReqOpt_Offset : Z;
  versesReqOpt_Media : ints;
  versesReqOpt_Translations : ints }.
Arguments versesReqOpt_Language {ints} _.
Arguments versesReqOpt_Recitation {ints} _.
Arguments versesReqOpt_TextType {ints} _.
Arguments versesReqOpt_Page {ints} _.
Arguments versesReqOpt_Limit {ints} _.
Arguments versesReqOpt_Offset {ints} _.
Arguments versesReqOpt_Media {ints} _.
Arguments versesReqOpt_Translations {ints} _.

Abbreviation versesReqOpt := (versesReqOptOf slice).

Definition VersesReqOptFn := versesReqOpt -> versesReqOpt.

Definition versesReqOpt_zero : versesReqOpt :=
  {| versesReqOpt_Language := ""; versesReqOpt_Recitation := 0; versesReqOpt_TextType := ""; versesReqOpt_Page := 0; versesReqOpt_Limit := 0;
     versesReqOpt_Offset := 0; versesReqOpt_Media := nilSlice; versesReqOpt_Translations := nilSlice |}.

Definition versesReqOpt_map {A B : Type} (f : A -> B) (v : versesReqOptOf A) : versesReqOptOf B :=
  {| versesReqOpt_Language := versesReqOpt_Language v; versesReqOpt_Recitation := versesReqOpt_Recitation v; versesReqOpt_TextType := versesReqOpt_TextType v;
     versesReqOpt_Page := versesReqOpt_Page v; versesReqOpt_Limit := versesReqOpt_Limit v; versesReqOpt_Offset := versesReqOpt_Offset v;
     versesReqOpt_Media := f (versesReqOpt_Media v); versesReqOpt_Translations := f (versesReqOpt_Translations v) |}.

Definition VersesLanguage (isoCode : string) : VersesReqOptFn :=
  fun opts =>
    {| versesReqOpt_Language := isoCode; versesReqOpt_Recitation := versesReqOpt_Recitation opts; versesReqOpt_TextType := versesReqOpt_TextType opts;
       versesReqOpt_Page := versesReqOpt_Page opts; versesReqOpt_Limit := versesReqOpt_Limit opts; versesReqOpt_Offset := versesReqOpt_Offset opts;
       versesReqOpt_Media := versesReqOpt_Media opts; versesReqOpt_Translations := versesReqOpt_Translations opts |}.

Definition VersesRecitation (recitation : Z) : VersesReqOptFn :=
  fun opts =>
    {| versesReqOpt_Language := versesReqOpt_Language opts; versesReqOpt_Recitation := recitation; versesReqOpt_TextType := versesReqOpt_TextType opts;
       versesReqOpt_Page := versesReqOpt_Page opts; versesReqOpt_Limit := versesReqOpt_Limit opts; versesReqOpt_Offset := versesReqOpt_Offset opts;
       versesReqOpt_Media := versesReqOpt_Media opts; versesReqOpt_Translations := versesReqOpt_Translations opts |}.

Definition VersesTextType (textType : string) : VersesReqOptFn :=
  fun opts =>
    {| versesReqOpt_Language := versesReqOpt_Language opts; versesReqOpt_Recitation := versesReqOpt_Recitation opts; versesReqOpt_TextType := textType;
       versesReqOpt_Page := versesReqOpt_Page opts; versesReqOpt_Limit := versesReqOpt_Limit opts; versesReqOpt_Offset := versesReqOpt_Offset opts;
       versesReqOpt_Media := versesReqOpt_Media opts; versesReqOpt_Translations := versesReqOpt_Translations opts |}.

Definition VersesLimit (i : Z) : VersesReqOptFn :=
  fun opts =>
    {| versesReqOpt_Language := versesReqOpt_Language opts; versesReqOpt_Recitation := versesReqOpt_Recitation opts; versesReqOpt_TextType := versesReqOpt_TextType opts;
       versesReqOpt_Page := versesReqOpt_Page opts; versesReqOpt_Limit := i; versesReqOpt_Offset := versesReqOpt_Offset opts;
       versesReqOpt_Media := versesReqOpt_Media opts; versesReqOpt_Translations := versesReqOpt_Translations opts |}.

Definition VersesOffset (i : Z) : VersesReqOptFn :=
  fun opts =>
    {| versesReqOpt_Language := versesReqOpt_Language opts; versesReqOpt_Recitation := versesReqOpt_Recitation opts; versesReqOpt_TextType := versesReqOpt_TextType opts;
       versesReqOpt_Page := versesReqOpt_Page opts; versesReqOpt_Limit := versesReqOpt_Limit opts; versesReqOpt_Offset := i;
       versesReqOpt_Media := versesReqOpt_Media opts; versesReqOpt_Translations := versesReqOpt_Translations opts |}.

Definition VersesPage (i : Z) : VersesReqOptFn :=
  fun opts =>
    {| versesReqOpt_Language := versesReqOpt_Language opts; versesReqOpt_Recitation := versesReqOpt_Recitation opts; versesReqOpt_TextType := versesReqOpt_TextType opts;
       versesReqOpt_Page := i; versesReqOpt_Limit := versesReqOpt_Limit opts; versesReqOpt_Offset := versesReqOpt_Offset opts;
       versesReqOpt_Media := versesReqOpt_Media opts; versesReqOpt_Translations := versesReqOpt_Translations opts |}.

Definition VersesMedia (media : slice) : VersesReqOptFn :=
  fun opts =>
    {| versesReqOpt_Language := versesReqOpt_Language opts; versesReqOpt_Recitation := versesReqOpt_Recitation opts; versesReqOpt_TextType := versesReqOpt_TextType opts;
       versesReqOpt_Page := versesReqOpt_Page opts; versesReqOpt_Limit := versesReqOpt_Limit opts; versesReqOpt_Offset := versesReqOpt_Offset opts;
       versesReqOpt_Media := media; versesReqOpt_Translations := versesReqOpt_Translations opts |}.

Definition VersesTranslations (translations : slice) : VersesReqOptFn :=
  fun opts =>
    {| versesReqOpt_Language := versesReqOpt_Language opts; versesReqOpt_Recitation := versesReqOpt_Recitation opts; versesReqOpt_TextType := versesReqOpt_TextType opts;
       versesReqOpt_Page := versesReqOpt_Page opts; versesReqOpt_Limit := versesReqOpt_Limit opts; versesReqOpt_Offset := versesReqOpt_Offset opts;
       versesReqOpt_Media := versesReqOpt_Media opts; versesReqOpt_Translations := translations |}.

Record verseTafsirReqOpts := { verseTafsirReqOpts_Tafsir : string }.

Definition VerseTafsirReqOptFn := verseTafsirReqOpts -> verseTafsirReqOpts.

Definition TafsirID (id : Z) : VerseTafsirReqOptFn :=
  fun opts => {| verseTafsirReqOpts_Tafsir := itoa id |}.

Definition verseTafsirReqOpts_zero : verseTafsirReqOpts := {| verseTafsirReqOpts_Tafsir := "" |}.

(** The anonymous struct [key] hands to the encoder. *)
Record versesKeyInput := {
  VerseReqOpts : versesReqOptOf (list Z);
  ChapterID : Z }.

(** ** encoding/gob

    [valueEncoder] and [valueDecode] take an [interface{}]: the encoder
    dispatches on the dynamic type of its argument.  [ty] lists the types
    the middleware stores (and the result type of [Search], which is never
    encoded); [denote] gives their values.  The anonymous struct of
    [versesReqOpt.key] is only ever encoded and has an entry of its own. *)

Inductive ty :=
| TRecitations | TTranslations | TLanguages | TTafsiraat | TChapters
| TChapter | TChapterInfo | TVerses | TVerse | TJuzzah | TVerseTafsirs
| TSearchResponse.

Definition denote (t : ty) : Type :=
  match t with
  | TRecitations => list Recitation
  | TTranslations => list Translation
  | TLanguages => list Language
  | TTafsiraat => list Tafsir
  | TChapters => list Chapter
  | TChapter => Chapter
  | TChapterInfo => ChapterInfo
  | TVerses => list Verse
  | TVerse => Verse
  | TJuzzah => list Juz
  | TVerseTafsirs => list VerseTafsir
  | TSearchResponse => SearchResponse
  end.

Definition TranslatedName_zero : TranslatedName :=
  {| TranslatedName_LanguageName := ""; TranslatedName_Name := "" |}.

Definition Chapter_zero : Chapter :=
  {| Chapter_ID := 0; Chapter_ChapterNumber := 0; Chapter_BismillahPre := false;
     Chapter_RevelationOrder := 0; Chapter_RevelationPlace := "";
     Chapter_NameComplex := ""; Chapter_NameArabic := ""; Chapter_NameSimple := "";
     Chapter_VersesCount := 0;
     Chapter_Pages := {| Pages_Start := 0; Pages_End := 0 |};
     Chapter_TranslatedName := TranslatedName_zero |}.

Definition ChapterInfo_zero : ChapterInfo :=
  {| ChapterInfo_ChapterID := 0; ChapterInfo_Text := ""; ChapterInfo_Source := "";
     ChapterInfo_ShortText := ""; ChapterInfo_LanguageName := "" |}.

Definition Verse_zero : Verse :=
  {| Verse_ID := 0; Verse_VerseNumber := 0; Verse_ChapterID := 0; Verse_VerseKey := "";
     Verse_TextMadani := ""; Verse_TextIndopak := ""; Verse_TextSimple := "";
     Verse_JuzNumber := 0; Verse_HizbNumber := 0; Verse_RubNumber := 0;
     Verse_Sajdah := ""; Verse_SajdahNumber := 0; Verse_PageNumber := 0;
     Verse_Audio := {| VerseAudio_URL := ""; VerseAudio_Duration := 0;
                       VerseAudio_Segments := []; VerseAudio_Format := "" |};
     Verse_Translations := []; Verse_MediaContents := []; Verse_Words := [] |}.

Definition SearchResponse_zero : SearchResponse :=
  {| SearchResponse_Query := ""; SearchResponse_TotalCount := 0; SearchResponse_Took := 0;
     SearchResponse_CurrentPage := 0; SearchResponse_TotalPages := 0;
     SearchResponse_PerPage := 0; SearchResponse_Results := [] |}.

(** The zero value of each type: [nil] for a slice, the all-zero struct. *)
Definition zeroValue (t : ty) : denote t :=
  match t with
  | TRecitations => [] | TTranslations => [] | TLanguages => [] | TTafsiraat => []
  | TChapters => []
  | TChapter => Chapter_zero
  | TChapterInfo => ChapterInfo_zero
  | TVerses => []
  | TVerse => Verse_zero
  | TJuzzah => [] | TVerseTafsirs => []
  | TSearchResponse => SearchResponse_zero
  end.

(** [gob_Encode t v] is what [gob.NewEncoder(&buf).Encode(v)] leaves in
    [buf], with its error; [gob_EncodeKey] is the same at the type of the
    key struct; [gob_Decode t b] is the state of a zero-valued [out] of
    type [t] after [gob.NewDecoder(bytes.NewBuffer(b)).Decode(&out)], with
    its error. *)
Class Gob := {
  gob_Encode : forall t : ty, denote t -> bytes * option error;
  gob_EncodeKey : versesKeyInput -> bytes * option error;
  gob_Decode : forall t : ty, bytes -> denote t * option error }.

(** What the code relies on: a value that encodes decodes to itself, and
    the decoder reports end of input on an empty buffer. *)
Class GobLaws `{Gob} : Prop := {
  gob_roundtrip : forall (t : ty) (v : denote t) (b : bytes),
    gob_Encode t v = (b, None) -> gob_Decode t b = (v, None);
  gob_Decode_empty : forall t : ty, (gob_Decode t "").2 = Some io_EOF }.

Definition valueDecode `{Gob} (t : ty) (b : bytes) : denote t * option error :=
  match gob_Decode t b with
  | (v, Some err) => (v, Some err)
  | (v, None) => (v, None)
  end.

(** Returns the buffer ([None] for the nil pointer) and the error. *)
Definition valueEncoder `{Gob} (t : ty) (v : denote t) : option bytes * option error :=
  match gob_Encode t v with
  | (_, Some err) => (None, Some err)
  | (buf, None) => (Some buf, None)
  end.

(** [versesReqOpt.key]: sorts both filters where they lie, then encodes the
    option bag together with the chapter id.  The receiver is a copy of
    the struct, but its slice headers still point at the caller's arrays,
    so the heap changes. *)
Definition key `{Sort} `{Gob} (v : versesReqOpt) (chapterID : Z) (h : heap)
  : (bytes * option error) * heap :=
  let h := sort_Ints (versesReqOpt_Media v) h in
  let h := sort_Ints (versesReqOpt_Translations v) h in
  let input := {| VerseReqOpts := versesReqOpt_map (slice_read h) v;
                  ChapterID := chapterID |} in
  (gob_EncodeKey input, h).

(** ** The store (bbolt)

    A bucket maps keys to plain values or to nested buckets; the root of
    the database is a bucket that holds only buckets.  A [*Bucket] obtained
    inside a transaction is the path of the bucket from the root, [None]
    for the nil pointer. *)

#[warnings="-register-all"]
Inductive entry :=
| Value (v : bytes)
| SubBucket (b : gmap bytes entry).

Abbreviation Bucket := (gmap bytes entry).
Abbreviation bucketPtr := (option (list bytes)).

Record DB := {
  opened : bool;
  readOnly : bool;
  root : gmap bytes entry }.

Definition MaxKeySize : Z := 32768.
Definition MaxValueSize : Z := Z.shiftl 1 31 - 2.

Fixpoint bucketAt (tx : gmap bytes entry) (p : list bytes) : option (gmap bytes entry) :=
  match p with
  | [] => Some tx
  | name :: p' =>
      match tx !! name with
      | Some (SubBucket b) => bucketAt b p'
      | _ => None
      end
  end.

Fixpoint alterAt (f : gmap bytes entry -> gmap bytes entry) (p : list bytes)
  (tx : gmap bytes entry) : gmap bytes entry :=
  match p with
  | [] => f tx
  | name :: p' =>
      match tx !! name with
      | Some (SubBucket b) => <[name := SubBucket (alterAt f p' b)]> tx
      | _ => tx
      end
  end.

Definition nilDeref : string := "invalid memory address or nil pointer dereference".

(** [b.Bucket(name)]: the nested bucket, nil when [name] is absent or holds
    a plain value. *)
Definition Bucket_Bucket (tx : gmap bytes entry) (b : bucketPtr) (name : bytes)
  : outcome bucketPtr :=
  match b with
  | None => Panic nilDeref
  | Some p =>
      match bucketAt tx (p ++ [name]) with
      | Some _ => Done (Some (p ++ [name]))
      | None => Done None
      end
  end.

(** [tx.Bucket(name)] *)
Definition Tx_Bucket (tx : gmap bytes entry) (name : bytes) : bucketPtr :=
  match bucketAt tx [name] with
  | Some _ => Some [name]
  | None => None
  end.

(** [b.Get(key)]: nil (here the empty string) when the key is absent or
    names a nested bucket. *)
Definition Bucket_Get (tx : gmap bytes entry) (b : bucketPtr) (k : bytes) : outcome bytes :=
  match b with
  | None => Panic nilDeref
  | Some p =>
      match bucketAt tx p with
      | None => Panic nilDeref
      | Some bk =>
          match bk !! k with
          | Some (Value v) => Done v
          | _ => Done ""
          end
      end
  end.

(** [b.Put(key, value)] inside a writable transaction. *)
Definition Bucket_Put (tx : gmap bytes entry) (b : bucketPtr) (k value : bytes)
  : outcome (gmap bytes entry * option error) :=
  match b with
  | None => Panic nilDeref
  | Some p =>
      match bucketAt tx p with
      | None => Panic nilDeref
      | Some bk =>
          if Z.of_nat (String.length k) =? 0 then Done (tx, Some ErrKeyRequired)
          else if Z.of_nat (String.length k) >? MaxKeySize then Done (tx, Some ErrKeyTooLarge)
          else if Z.of_nat (String.length value) >? MaxValueSize then Done (tx, Some ErrValueTooLarge)
          else match bk !! k with
               | Some (SubBucket _) => Done (tx, Some ErrIncompatibleValue)
               | _ => Done (alterAt (fun bk => <[k := Value value]> bk) p tx, None)
               end
      end
  end.

(** [b.CreateBucketIfNotExists(name)] inside a writable transaction. *)
Definition Bucket_CreateBucketIfNotExists (tx : gmap bytes entry) (b : bucketPtr) (name : bytes)
  : outcome (gmap bytes entry * bucketPtr * option error) :=
  match b with
  | None => Panic nilDeref
  | Some p =>
      match bucketAt tx p with
      | None => Panic nilDeref
      | Some bk =>
          if Z.of_nat (String.length name) =? 0 then Done (tx, None, Some ErrBucketNameRequired)
          else match bk !! name with
               | Some (SubBucket _) => Done (tx, Some (p ++ [name]), None)
               | Some (Value _) => Done (tx, None, Some ErrIncompatibleValue)
               | None =>
                   Done (alterAt (fun bk => <[name := SubBucket ∅]> bk) p tx,
                         Some (p ++ [name]), None)
               end
      end
  end.

(** [tx.CreateBucketIfNotExists(name)]: the same on the root bucket. *)
Definition Tx_CreateBucketIfNotExists (tx : gmap bytes entry) (name : bytes)
  : outcome (gmap bytes entry * bucketPtr * option error) :=
  Bucket_CreateBucketIfNotExists tx (Some []) name.

(** How a method reaches its bucket: [tx.Bucket(bucket)] for the path
    [[bucket]], [tx.Bucket(bucket).Bucket(nestedBucket)] for the path
    [[bucket; nestedBucket]]. *)
Definition openBucket (path : list bytes) (tx : gmap bytes entry) : outcome bucketPtr :=
  match path with
  | [] => Done (Some [])
  | bucket :: nestedBuckets =>
      fold_left (fun b nestedBucket => b ← b; Bucket_Bucket tx b nestedBucket)
        nestedBuckets (Done (Tx_Bucket tx bucket))
  end.

(** [db.View(fn)]: [fn] runs on a snapshot of the root; [init] is the
    variable the closure assigns its result to, left as it was when the
    transaction cannot begin. *)
Definition DB_View {A : Type} (db : DB) (init : A)
  (fn : gmap bytes entry -> outcome (A * option error)) : outcome (A * option error) :=
  if negb (opened db) then Done (init, Some ErrDatabaseNotOpen)
  else fn (root db).

(** [db.Update(fn)]: commits what [fn] wrote when [fn] returns nil, rolls
    back when it returns an error or panics. *)
Definition DB_Update (db : DB)
  (fn : gmap bytes entry -> outcome (gmap bytes entry * option error))
  : outcome (DB * option error) :=
  if readOnly db then Done (db, Some ErrDatabaseReadOnly)
  else if negb (opened db) then Done (db, Some ErrDatabaseNotOpen)
  else match fn (root db) with
       | Panic msg => Panic msg
       | Done (_, Some err) => Done (db, Some err)
       | Done (tx, None) =>
           Done ({| opened := opened db; readOnly := readOnly db; root := tx |}, None)
       end.

(** ** The wrapped API

    [QuranAPI] is an interface of twelve methods.  A [Call t] is one method
    together with its arguments, [t] its result type; an implementation
    answers a call or panics in it, may keep state of its own, and reads
    the heap when an option refers to a slice.  It writes neither to the
    store nor to its caller's slices.  (The [context.Context] argument is passed
    through untouched by every method and is left out.) *)

Inductive Call : ty -> Type :=
| CallRecitations (reqOpts : list ReqOptFn) : Call TRecitations
| CallTranslations (reqOpts : list ReqOptFn) : Call TTranslations
| CallLanguages (reqOpts : list ReqOptFn) : Call TLanguages
| CallTafsiraat (reqOpts : list ReqOptFn) : Call TTafsiraat
| CallChapters (reqOpts : list ReqOptFn) : Call TChapters
| CallChapter (id : Z) (reqOpts : list ReqOptFn) : Call TChapter
| CallChapterInfo (id : Z) (reqOpts : list ReqOptFn) : Call TChapterInfo
| CallVerses (chapterID : Z) (reqOpts : list VersesReqOptFn) : Call TVerses
| CallVerse (chapterID verseID : Z) : Call TVerse
| CallJuzzah : Call TJuzzah
| CallVerseTafsir (chapterID verseID : Z) (reqOpts : list VerseTafsirReqOptFn) : Call TVerseTafsirs
| CallSearch (query : SearchRequest) : Call TSearchResponse.

Class QuranAPI (S : Type) := {
  invoke : forall t : ty, Call t -> heap -> S -> outcome (denote t * option error) * S }.
Arguments invoke {S _ t} _ _ _.

(** What a run leaves behind for an observer: each read transaction with
    the error it returned, each write transaction with the error it
    returned, each call of the wrapped API. *)
Inductive Event :=
| EvView (err : option error)
| EvUpdate (err : option error)
| EvNext {t : ty} (c : Call t).

Record World (S : Type) := {
  w_heap : heap;
  w_db : DB;
  w_api : S;
  w_trace : list Event }.
Arguments w_heap {S} _.
Arguments w_db {S} _.
Arguments w_api {S} _.
Arguments w_trace {S} _.
Arguments Build_World {S} _ _ _ _.

Definition isNext (e : Event) : bool :=
  match e with EvNext _ => true | _ => false end.
Definition isView (e : Event) : bool :=
  match e with EvView _ => true | _ => false end.
Definition isUpdate (e : Event) : bool :=
  match e with EvUpdate _ => true | _ => false end.

(** Number of events of one kind in a trace. *)
Definition count (p : Event -> bool) (tr : list Event) : nat :=
  length (filter (fun e => p e = true) tr).

(** ** Bucket names *)

Definition bucketChapters : string := "chapters".
Definition bucketChapter : string := "chapter".
Definition bucketChapterInfo : string := "chapterinfo".
Definition bucketJuzzah : string := "juzzah".
Definition bucketLanguages : string := "languages".
Definition bucketRecitations : string := "recitations".
Definition bucketTafsiraat : string := "tafsiraat".
Definition bucketTranslations : string := "translations".
Definition bucketVerse : string := "verse".
Definition bucketVerseTafsir : string := "verse_tafsir".
Definition bucketVerses : string := "verses".

(** ** The cache middleware *)

Section Middleware.
Context {S : Type} `{Sort} `{Gob} `{QuranAPI S}.

(** A method body: it runs in a world and either returns or panics. *)
Definition M (A : Type) : Type := World S -> outcome A * World S.

#[global] Instance M_ret : MRet M := fun A a w => (Done a, w).
#[global] Instance M_bind : MBind M := fun A B f m w =>
  match m w with
  | (Done a, w') => f a w'
  | (Panic msg, w') => (Panic msg, w')
  end.

Definition emit (e : Event) (w : World S) : World S :=
  Build_World (w_heap w) (w_db w) (w_api w) (e :: w_trace w).

(** The two transactions as steps of a method: each leaves its error in
    the trace. *)
Definition db_View {A : Type} (init : A)
  (fn : gmap bytes entry -> outcome (A * option error)) : M (A * option error) :=
  fun w =>
    match DB_View (w_db w) init fn with
    | Panic msg => (Panic msg, w)
    | Done (out, err) => (Done (out, err), emit (EvView err) w)
    end.

Definition db_Update (fn : gmap bytes entry -> outcome (gmap bytes entry * option error))
  : M (option error) :=
  fun w =>
    match DB_Update (w_db w) fn with
    | Panic msg => (Panic msg, w)
    | Done (db, err) =>
        (Done err, Build_World (w_heap w) db (w_api w) (EvUpdate err :: w_trace w))
    end.

(** [bc.next.X(ctx, args...)]: the wrapped call is made in the current
    heap; what it returns is returned, and a panic in it is the panic of
    the method. *)
Definition callNext {t : ty} (c : Call t) : M (denote t * option error) :=
  fun w =>
    let '(r, s) := invoke c (w_heap w) (w_api w) in
    (r, Build_World (w_heap w) (w_db w) s (EvNext c :: w_trace w)).

(** Runs a heap-changing function on the world's heap. *)
Definition onHeap {A : Type} (f : heap -> A * heap) : M A :=
  fun w =>
    let '(a, h) := f (w_heap w) in
    (Done a, Build_World h (w_db w) (w_api w) (w_trace w)).

(** The closure of the read transaction:
    [b := tx.Bucket(..); return valueDecode(b.Get(cacheID), &out)]. *)
Definition readFn (t : ty) (path : list bytes) (cacheID : bytes)
  (tx : gmap bytes entry) : outcome (denote t * option error) :=
  b ← openBucket path tx;
  v ← Bucket_Get tx b cacheID;
  mret (valueDecode t v).

(** The closure of the write transaction:
    [buf, err := valueEncoder(clientOut); if err != nil { return err };
     b := tx.Bucket(..); return b.Put(cacheID, buf.Bytes())]. *)
Definition writeFn (t : ty) (path : list bytes) (cacheID : bytes)
  (clientOut : denote t) (tx : gmap bytes entry)
  : outcome (gmap bytes entry * option error) :=
  match valueEncoder t clientOut with
  | (_, Some err) => mret (tx, Some err)
  | (Some buf, None) =>
      b ← openBucket path tx;
      Bucket_Put tx b cacheID buf
  | (None, None) => Panic nilDeref
  end.

(** The body every cached method repeats after it has computed its bucket
    and [cacheID]: read, return on a hit; otherwise fetch, return the zero
    value and the error when the fetch fails; otherwise write, ignoring
    the outcome of the write, and return what was fetched. *)
Definition readThrough {t : ty} (path : list bytes)
  (cacheID : bytes) (c : Call t) : M (denote t * option error) :=
  '(out, err) ← db_View (zeroValue t) (readFn t path cacheID);
  match err with
  | None => mret (out, None)
  | Some _ =>
      '(clientOut, err) ← callNext c;
      match err with
      | Some err => mret (zeroValue t, Some err)
      | None =>
          _ ← db_Update (writeFn t path cacheID clientOut);
          mret (clientOut, None)
      end
  end.

Definition bc_Recitations (reqOpts : list ReqOptFn) : M (list Recitation * option error) :=
  let opt := applyOpts reqOpt_zero reqOpts in
  let bucket := bucketRecitations in
  let cacheID := itoa (reqOpt_languageID opt) in
  readThrough [bucket] cacheID (CallRecitations reqOpts).

Definition bc_Translations (reqOpts : list ReqOptFn) : M (list Translation * option error) :=
  let opt := applyOpts reqOpt_zero reqOpts in
  let bucket := bucketTranslations in
  let cacheID := itoa (reqOpt_languageID opt) in
  readThrough [bucket] cacheID (CallTranslations reqOpts).

Definition bc_Languages (reqOpts : list ReqOptFn) : M (list Language * option error) :=
  let opt := applyOpts reqOpt_zero reqOpts in
  let bucket := bucketLanguages in
  let cacheID := itoa (reqOpt_languageID opt) in
  readThrough [bucket] cacheID (CallLanguages reqOpts).

Definition bc_Tafsiraat (reqOpts : list ReqOptFn) : M (list Tafsir * option error) :=
  let opt := applyOpts reqOpt_zero reqOpts in
  let bucket := bucketTafsiraat in
  let cacheID := itoa (reqOpt_languageID opt) in
  readThrough [bucket] cacheID (CallTafsiraat reqOpts).

Definition bc_Chapters (reqOpts : list ReqOptFn) : M (list Chapter * option error) :=
  let opt := applyOpts reqOpt_zero reqOpts in
  let bucket := bucketChapters in
  let cacheID := itoa (reqOpt_languageID opt) in
  readThrough [bucket] cacheID (CallChapters reqOpts).

Definition bc_Chapter (id : Z) (reqOpts : list ReqOptFn) : M (Chapter * option error) :=
  let opt := applyOpts reqOpt_zero reqOpts in
  let bucket := bucketChapters in
  let nestedBucket := bucketChapter in
  let cacheID := join [itoa (reqOpt_languageID opt); itoa id] in
  readThrough [bucket; nestedBucket] cacheID (CallChapter id reqOpts).

Definition bc_ChapterInfo (id : Z) (reqOpts : list ReqOptFn) : M (ChapterInfo * option error) :=
  let opt := applyOpts reqOpt_zero reqOpts in
  let bucket := bucketChapters in
  let nestedBucket := bucketChapterInfo in
  let cacheID := join [itoa (reqOpt_languageID opt); itoa id] in
  readThrough [bucket; nestedBucket] cacheID (CallChapterInfo id reqOpts).

Definition bc_Verses (chapterID : Z) (reqOpts : list VersesReqOptFn)
  : M (list Verse * option error) :=
  let opt := applyOpts versesReqOpt_zero reqOpts in
  let bucket := bucketVerses in
  '(cacheID, err) ← onHeap (key opt chapterID);
  match err with
  | Some _ => callNext (CallVerses chapterID reqOpts)
  | None => readThrough [bucket] cacheID (CallVerses chapterID reqOpts)
  end.

Definition bc_Verse (chapterID verseID : Z) : M (Verse * option error) :=
  let bucket := bucketVerses in
  let nestedBucket := bucketVerse in
  let cacheID := join [itoa chapterID; itoa verseID] in
  readThrough [bucket; nestedBucket] cacheID (CallVerse chapterID verseID).

Definition bc_Juzzah : M (list Juz * option error) :=
  let bucket := bucketJuzzah in
  let cacheID := "juzzah" in
  readThrough [bucket] cacheID CallJuzzah.

Definition bc_VerseTafsir (chapterID verseID : Z) (reqOpts : list VerseTafsirReqOptFn)
  : M (list VerseTafsir * option error) :=
  let opt := applyOpts verseTafsirReqOpts_zero reqOpts in
  let bucket := bucketVerses in
  let nestedBucket := bucketVerseTafsir in
  let cacheID := join [verseTafsirReqOpts_Tafsir opt; itoa chapterID; itoa verseID] in
  readThrough [bucket; nestedBucket] cacheID
    (CallVerseTafsir chapterID verseID reqOpts).

Definition bc_Search (query : SearchRequest) : M (SearchResponse * option error) :=
  callNext (CallSearch query).

(** The middleware as an implementation of [QuranAPI]: each call goes to
    the method of that name. *)
Definition decorated {t : ty} (c : Call t) : M (denote t * option error) :=
  match c in Call t return M (denote t * option error) with
  | CallRecitations reqOpts => bc_Recitations reqOpts
  | CallTranslations reqOpts => bc_Translations reqOpts
  | CallLanguages reqOpts => bc_Languages reqOpts
  | CallTafsiraat reqOpts => bc_Tafsiraat reqOpts
  | CallChapters reqOpts => bc_Chapters reqOpts
  | CallChapter id reqOpts => bc_Chapter id reqOpts
  | CallChapterInfo id reqOpts => bc_ChapterInfo id reqOpts
  | CallVerses chapterID reqOpts => bc_Verses chapterID reqOpts
  | CallVerse chapterID verseID => bc_Verse chapterID verseID
  | CallJuzzah => bc_Juzzah
  | CallVerseTafsir chapterID verseID reqOpts => bc_VerseTafsir chapterID verseID reqOpts
  | CallSearch query => bc_Search query
  end.

(** Where a call is cached: the path of the bucket and the [cacheID] its method
    computes, [None] when the method goes straight to the wrapped API
    ([Search] always, [Verses] when [key] fails), and the heap the method
    leaves behind. *)
Definition target {t : ty} (c : Call t) (h : heap)
  : option (list bytes * bytes) * heap :=
  match c with
  | CallRecitations reqOpts =>
      (Some ([bucketRecitations],
             itoa (reqOpt_languageID (applyOpts reqOpt_zero reqOpts))), h)
  | CallTranslations reqOpts =>
      (Some ([bucketTranslations],
             itoa (reqOpt_languageID (applyOpts reqOpt_zero reqOpts))), h)
  | CallLanguages reqOpts =>
      (Some ([bucketLanguages],
             itoa (reqOpt_languageID (applyOpts reqOpt_zero reqOpts))), h)
  | CallTafsiraat reqOpts =>
      (Some ([bucketTafsiraat],
             itoa (reqOpt_languageID (applyOpts reqOpt_zero reqOpts))), h)
  | CallChapters reqOpts =>
      (Some ([bucketChapters],
             itoa (reqOpt_languageID (applyOpts reqOpt_zero reqOpts))), h)
  | CallChapter id reqOpts =>
      (Some ([bucketChapters; bucketChapter],
             join [itoa (reqOpt_languageID (applyOpts reqOpt_zero reqOpts)); itoa id]), h)
  | CallChapterInfo id reqOpts =>
      (Some ([bucketChapters; bucketChapterInfo],
             join [itoa (reqOpt_languageID (applyOpts reqOpt_zero reqOpts)); itoa id]), h)
  | CallVerses chapterID reqOpts =>
      let '((cacheID, err), h') := key (applyOpts versesReqOpt_zero reqOpts) chapterID h in
      (match err with
       | Some _ => None
       | None => Some ([bucketVerses], cacheID)
       end, h')
  | CallVerse chapterID verseID =>
      (Some ([bucketVerses; bucketVerse], join [itoa chapterID; itoa verseID]), h)
  | CallJuzzah => (Some ([bucketJuzzah], "juzzah"), h)
  | CallVerseTafsir chapterID verseID reqOpts =>
      (Some ([bucketVerses; bucketVerseTafsir],
             join [verseTafsirReqOpts_Tafsir (applyOpts verseTafsirReqOpts_zero reqOpts);
                   itoa chapterID; itoa verseID]), h)
  | CallSearch _ => (None, h)
  end.

Definition setHeap (h : heap) (w : World S) : World S :=
  Build_World h (w_db w) (w_api w) (w_trace w).

End Middleware.

(** ** [BoltCache]: creating the buckets *)

(** The map literal of [BoltCache], as the list of its entries. *)
Definition buckets : list (string * list string) :=
  [ (bucketChapters, [bucketChapter; bucketChapterInfo]);
    (bucketJuzzah, []);
    (bucketLanguages, []);
    (bucketRecitations, []);
    (bucketTafsiraat, []);
    (bucketTranslations, []);
    (bucketVerses, [bucketVerse; bucketVerseTafsir]) ].

Definition doubleQuote : string := String (Ascii.ascii_of_nat 34) EmptyString.

(** The verb [%q] on a name made of plain letters: the name between double
    quotes. *)
Definition quoted (s : string) : string := doubleQuote +:+ s +:+ doubleQuote.

(** The middleware value: it holds the handle of the store and the wrapped
    client, both fixed in a world. *)
Variant boltCacheMiddleware := Build_boltCacheMiddleware.

(** The inner loop of the closure: [for _, nestedBucket := range nestedBuckets]. *)
Fixpoint createNested (b : bucketPtr) (nestedBuckets : list string) (tx : gmap bytes entry)
  : outcome (gmap bytes entry * option error) :=
  match nestedBuckets with
  | [] => Done (tx, None)
  | nestedBucket :: rest =>
      '(tx, _, err) ← Bucket_CreateBucketIfNotExists tx b nestedBucket;
      match err with
      | Some err =>
          Done (tx, Some (Errorf ("create nested bucket " +:+ quoted nestedBucket +:+ ": "
                                  +:+ error_Error err)))
      | None => createNested b rest tx
      end
  end.

(** The closure passed to [db.Update] for one entry of the map. *)
Definition createBuckets (bucket : string) (nestedBuckets : list string)
  (tx : gmap bytes entry) : outcome (gmap bytes entry * option error) :=
  '(tx, b, err) ← Tx_CreateBucketIfNotExists tx bucket;
  match err with
  | Some err =>
      Done (tx, Some (Errorf ("create bucket " +:+ quoted bucket +:+ ": " +:+ error_Error err)))
  | None => createNested b nestedBuckets tx
  end.

Section BoltCache.
Context {S : Type}.

(** [for bucket, nestedBuckets := range buckets]: one write transaction
    per entry, stopping at the first error. *)
Fixpoint BoltCache_range (order : list (string * list string)) : M (S:=S) (option error) :=
  match order with
  | [] => mret None
  | (bucket, nestedBuckets) :: rest =>
      err ← db_Update (createBuckets bucket nestedBuckets);
      match err with
      | Some err => mret (Some err)
      | None => BoltCache_range rest
      end
  end.

(** [BoltCache(client, db)].  Go visits the entries of a map in an
    unspecified order; [order] is the order of this run. *)
Definition BoltCache (order : list (string * list string))
  : M (S:=S) (option boltCacheMiddleware * option error) :=
  err ← BoltCache_range order;
  match err with
  | Some err => mret (None, Some err)
  | None => mret (Some Build_boltCacheMiddleware, None)
  end.

End BoltCache.

(** ** The client operations that sort their result

    The HTTP exchange is outside this development: a method receives its
    outcome [http], the decoded response body and the error of
    [req.Success(...).DecodeJSON(&resp).Do(ctx)]. *)

Definition apiChapterToChapter (ch : apiChapter) : outcome Chapter :=
  match apiChapter_Pages ch with
  | start :: end_ :: _ =>
      Done {| Chapter_ID := apiChapter_ID ch;
              Chapter_ChapterNumber := apiChapter_ChapterNumber ch;
              Chapter_BismillahPre := apiChapter_BismillahPre ch;
              Chapter_RevelationOrder := apiChapter_RevelationOrder ch;
              Chapter_RevelationPlace := apiChapter_RevelationPlace ch;
              Chapter_NameComplex := apiChapter_NameComplex ch;
              Chapter_NameArabic := apiChapter_NameArabic ch;
              Chapter_NameSimple := apiChapter_NameSimple ch;
              Chapter_VersesCount := apiChapter_VersesCount ch;
              Chapter_Pages := {| Pages_Start := start; Pages_End := end_ |};
              Chapter_TranslatedName := apiChapter_TranslatedName ch |}
  | _ => Panic "index out of range"
  end.

(** [for i, ch := range resp.Chapters { chapters[i] = apiChapterToChapter(ch) }] *)
Fixpoint convertChapters (chs : list apiChapter) : outcome (list Chapter) :=
  match chs with
  | [] => Done []
  | ch :: rest =>
      c ← apiChapterToChapter ch;
      cs ← convertChapters rest;
      Done (c :: cs)
  end.

Section Client.
Context `{Sort}.

Definition c_Translations (http : list Translation * option error)
  : outcome (list Translation * option error) :=
  match http with
  | (_, Some err) => Done ([], Some err)
  | (resp, None) =>
      Done (sort_Slice (fun a b => Translation_ID a <? Translation_ID b) resp, None)
  end.

Definition c_Languages (http : list Language * option error)
  : outcome (list Language * option error) :=
  match http with
  | (_, Some err) => Done ([], Some err)
  | (resp, None) =>
      Done (sort_Slice (fun a b => Language_ID a <? Language_ID b) resp, None)
  end.

Definition c_Tafsiraat (http : list Tafsir * option error)
  : outcome (list Tafsir * option error) :=
  match http with
  | (_, Some err) => Done ([], Some err)
  | (resp, None) =>
      Done (sort_Slice (fun a b => Tafsir_ID a <? Tafsir_ID b) resp, None)
  end.

Definition c_Chapters (http : list apiChapter * option error)
  : outcome (list Chapter * option error) :=
  match http with
  | (_, Some err) => Done ([], Some err)
  | (resp, None) =>
      chapters ← convertChapters resp;
      Done (sort_Slice (fun a b => Chapter_ChapterNumber a <? Chapter_ChapterNumber b)
              chapters, None)
  end.

End Client.

(** ** Reference instances

    Concrete implementations of the three interfaces, used to run the
    middleware on examples: insertion sort, a codec that knows a handful of
    values, and a stub API that counts its invocations. *)

Definition insertionSorter : Sort := {| sort_Slice := @insertionSort |}.

#[global] Instance TranslatedName_eq_dec : EqDecision TranslatedName.
Proof. solve_decision. Defined.
#[global] Instance ChapterPages_eq_dec : EqDecision ChapterPages.
Proof. solve_decision. Defined.
#[global] Instance Chapter_eq_dec : EqDecision Chapter.
Proof. solve_decision. Defined.

Definition alFatihah : Chapter :=
  {| Chapter_ID := 1; Chapter_ChapterNumber := 1; Chapter_BismillahPre := false;
     Chapter_RevelationOrder := 5; Chapter_RevelationPlace := "makkah";
     Chapter_NameComplex := "Al-Fatihah"; Chapter_NameArabic := "";
     Chapter_NameSimple := "Al-Fatihah"; Chapter_VersesCount := 7;
     Chapter_Pages := {| Pages_Start := 1; Pages_End := 1 |};
     Chapter_TranslatedName :=
       {| TranslatedName_LanguageName := "english"; TranslatedName_Name := "The Opener" |} |}.

Definition changedChapter : Chapter :=
  {| Chapter_ID := 1; Chapter_ChapterNumber := 1; Chapter_BismillahPre := false;
     Chapter_RevelationOrder := 5; Chapter_RevelationPlace := "makkah";
     Chapter_NameComplex := "CHANGED"; Chapter_NameArabic := "";
     Chapter_NameSimple := "CHANGED"; Chapter_VersesCount := 7;
     Chapter_Pages := {| Pages_Start := 1; Pages_End := 1 |};
     Chapter_TranslatedName :=
       {| TranslatedName_LanguageName := "english"; TranslatedName_Name := "The Opener" |} |}.

Definition unsupported : error := ErrGob "gob: unsupported value".
Definition malformed : error := ErrGob "gob: malformed input".

(** The stub encoder: the empty list of every list type, and two chapters. *)
Definition stub_Encode (t : ty) : denote t -> bytes * option error :=
  match t return denote t -> bytes * option error with
  | TChapter => fun v =>
      if decide (v = alFatihah) then ("chapter/al-fatihah", None)
      else if decide (v = changedChapter) then ("chapter/changed", None)
      else ("", Some unsupported)
  | TChapterInfo | TVerse | TSearchResponse => fun _ => ("", Some unsupported)
  | TRecitations | TTranslations | TLanguages | TTafsiraat | TChapters
  | TVerses | TJuzzah | TVerseTafsirs => fun v =>
      match v with
      | [] => ("[]", None)
      | _ :: _ => ("", Some unsupported)
      end
  end.

Definition stub_Decode (t : ty) (b : bytes) : denote t * option error :=
  if decide (b = "") then (zeroValue t, Some io_EOF)
  else
    match t return denote t * option error with
    | TChapter =>
        if decide (b = "chapter/al-fatihah") then (alFatihah, None)
        else if decide (b = "chapter/changed") then (changedChapter, None)
        else (Chapter_zero, Some malformed)
    | TChapterInfo => (ChapterInfo_zero, Some malformed)
    | TVerse => (Verse_zero, Some malformed)
    | TSearchResponse => (SearchResponse_zero, Some malformed)
    | TRecitations => if decide (b = "[]") then ([], None) else ([], Some malformed)
    | TTranslations => if decide (b = "[]") then ([], None) else ([], Some malformed)
    | TLanguages => if decide (b = "[]") then ([], None) else ([], Some malformed)
    | TTafsiraat => if decide (b = "[]") then ([], None) else ([], Some malformed)
    | TChapters => if decide (b = "[]") then ([], None) else ([], Some malformed)
    | TVerses => if decide (b = "[]") then ([], None) else ([], Some malformed)
    | TJuzzah => if decide (b = "[]") then ([], None) else ([], Some malformed)
    | TVerseTafsirs => if decide (b = "[]") then ([], None) else ([], Some malformed)
    end.

Definition showInts (x : list Z) : string := String.concat "," (map itoa x).

(** The stub key encoder prints every field of the key struct. *)
Definition stub_EncodeKey (input : versesKeyInput) : bytes * option error :=
  let v := VerseReqOpts input in
  (String.concat "|"
     [ versesReqOpt_Language v; itoa (versesReqOpt_Recitation v); versesReqOpt_TextType v;
       itoa (versesReqOpt_Page v); itoa (versesReqOpt_Limit v); itoa (versesReqOpt_Offset v);
       showInts (versesReqOpt_Media v); showInts (versesReqOpt_Translations v);
       itoa (ChapterID input) ], None).

Definition stubGob : Gob :=
  {| gob_Encode := stub_Encode; gob_EncodeKey := stub_EncodeKey; gob_Decode := stub_Decode |}.

(** The same codec with a key encoder that always fails. *)
Definition brokenKeyGob : Gob :=
  {| gob_Encode := stub_Encode;
     gob_EncodeKey := fun _ => ("", Some unsupported);
     gob_Decode := stub_Decode |}.

Definition notStubbed : error := ErrUpstream "stub: no answer".

(** The stub API: its state is the number of calls it has served.
    [Chapter] answers [alFatihah] on the first invocation and
    [changedChapter] afterwards; the list operations answer the empty list;
    [Search] and the single-item operations other than [Chapter] fail. *)
Definition stub_invoke (t : ty) (c : Call t) (h : heap) (n : nat)
  : outcome (denote t * option error) * nat :=
  (Done match c in Call t return denote t * option error with
   | CallChapter _ _ => if decide (n = 0%nat) then (alFatihah, None) else (changedChapter, None)
   | CallChapterInfo _ _ => (ChapterInfo_zero, Some notStubbed)
   | CallVerse _ _ => (Verse_zero, Some notStubbed)
   | CallSearch _ => (SearchResponse_zero, Some notStubbed)
   | CallRecitations _ => ([], None)
   | CallTranslations _ => ([], None)
   | CallLanguages _ => ([], None)
   | CallTafsiraat _ => ([], None)
   | CallChapters _ => ([], None)
   | CallVerses _ _ => ([], None)
   | CallJuzzah => ([], None)
   | CallVerseTafsir _ _ _ => ([], None)
        end, Datatypes.S n).

Definition stubAPI : QuranAPI nat := {| invoke := stub_invoke |}.

(** A freshly created, writable database, and the world around it. *)
Definition emptyDB : DB := {| opened := true; readOnly := false; root := ∅ |}.

Definition world0 (h : heap) : World nat :=
  {| w_heap := h; w_db := emptyDB; w_api := 0%nat; w_trace := [] |}.

(** ** Example worlds *)

(** The stub world after [BoltCache] has run on an empty database. *)
Definition bootstrapped (h : heap) : World nat := (BoltCache buckets (world0 h)).2.

(** The same world with the database opened read-only. *)
Definition readOnlyWorld : World nat :=
  {| w_heap := []; w_api := 0%nat; w_trace := [];
     w_db := {| opened := true; readOnly := true; root := root (w_db (bootstrapped [])) |} |}.

(** [ids := []int{2, 3, 1}], with [VersesMedia(ids[0:2])] and
    [VersesTranslations(ids[1:3])]: the two filters share [ids[1]]. *)
Definition ids : heap := [2; 3; 1].

Definition overlappingOpts : list VersesReqOptFn :=
  [ VersesMedia {| slice_off := 0; slice_len := 2 |};
    VersesTranslations {| slice_off := 1; slice_len := 2 |} ].

(** The same filters, media [{3, 2}] and translations [{1, 3}], each in an
    array of its own. *)
Definition separateIds : heap := [3; 2; 1; 3].

Definition separateOpts : list VersesReqOptFn :=
  [ VersesMedia {| slice_off := 0; slice_len := 2 |};
    VersesTranslations {| slice_off := 2; slice_len := 2 |} ].

(** The bootstrapped store with one value put under key "0" of the
    recitations bucket. *)
Definition storeWith (v : bytes) : DB :=
  {| opened := true; readOnly := false;
     root := <["recitations" := SubBucket {[ "0" := Value v ]}]>
               (root (w_db (bootstrapped []))) |}.

Definition unsortedTranslations : list Translation :=
  [ {| Translation_ID := 3; Translation_AuthorName := "c"; Translation_LanguageName := "english";
       Translation_Name := "third"; Translation_Slug := "" |};
    {| Translation_ID := 1; Translation_AuthorName := "a"; Translation_LanguageName := "english";
       Translation_Name := "first"; Translation_Slug := "" |};
    {| Translation_ID := 2; Translation_AuthorName := "b"; Translation_LanguageName := "urdu";
       Translation_Name := "second"; Translation_Slug := "" |} ].

(** [Verses(2, translations=[3,1,2])] then [Verses(2, translations=[1,2,3])],
    each slice in an array of its own. *)
Definition twoOrders : heap := [3; 1; 2; 1; 2; 3].

Definition versesFirst : Call TVerses :=
  CallVerses 2 [VersesTranslations {| slice_off := 0; slice_len := 3 |}].

Definition versesSecond : Call TVerses :=
  CallVerses 2 [VersesTranslations {| slice_off := 3; slice_len := 3 |}].

(** ** Vocabulary of the properties *)

(** The two filters of an option bag occupy separate storage. *)
Definition separate (h : heap) (v : versesReqOpt) : Prop :=
  slice_wf h (versesReqOpt_Media v) /\
  slice_wf h (versesReqOpt_Translations v) /\
  slice_disjoint (versesReqOpt_Media v) (versesReqOpt_Translations v).

(** The option bag with both filters in ascending order. *)
Definition canonical `{Sort} (h : heap) (v : versesReqOpt) : versesReqOptOf (list Z) :=
  versesReqOpt_map (fun s => sort_Slice Z.ltb (slice_read h s)) v.

Definition storedBytes (bk : gmap bytes entry) (k : bytes) : bytes :=
  match bk !! k with
  | Some (Value v) => v
  | _ => ""
  end.

(** The filters a call refers to occupy separate storage: a condition on
    [Verses] only. *)
Definition filtersSeparate {t : ty} (c : Call t) (h : heap) : Prop :=
  match c with
  | CallVerses _ reqOpts => separate h (applyOpts versesReqOpt_zero reqOpts)
  | _ => True
  end.

(** The operations keyed by the language filter alone. *)
Inductive ScalarKeyed : forall t : ty, (list ReqOptFn -> Call t) -> string -> Prop :=
| ScalarKeyed_Recitations : ScalarKeyed TRecitations CallRecitations bucketRecitations
| ScalarKeyed_Translations : ScalarKeyed TTranslations CallTranslations bucketTranslations
| ScalarKeyed_Languages : ScalarKeyed TLanguages CallLanguages bucketLanguages
| ScalarKeyed_Tafsiraat : ScalarKeyed TTafsiraat CallTafsiraat bucketTafsiraat
| ScalarKeyed_Chapters : ScalarKeyed TChapters CallChapters bucketChapters.

(** Every bucket of [tx] is a bucket of [tx']. *)
Definition extends (tx tx' : gmap bytes entry) : Prop :=
  forall p : list bytes, is_Some (bucketAt tx p) -> is_Some (bucketAt tx' p).

(** The bucket of a map entry and its nested buckets exist. *)
Definition initialized (tx : gmap bytes entry) (e : string * list string) : Prop :=
  is_Some (bucketAt tx [e.1]) /\ Forall (fun n => is_Some (bucketAt tx [e.1; n])) e.2.

Definition named (e : string * list string) : Prop :=
  e.1 <> "" /\ Forall (fun n => n <> "") e.2.

(** ** The store after bootstrap, and runs of several calls *)

(** Every bucket of the map of [BoltCache] exists, with its nested buckets. *)
Definition bootstrappedDB (db : DB) : Prop :=
  Forall (initialized (root db)) buckets.

Section Runs.
Context {S : Type} `{Sort} `{Gob} `{QuranAPI S}.

(** The decorated calls of a list, one after the other, results dropped. *)
Fixpoint runAll (cs : list (sigT Call)) : M (S:=S) unit :=
  match cs with
  | [] => mret tt
  | existT _ c :: rest =>
      _ ← decorated c;
      runAll rest
  end.

End Runs.

(** A short session: a chapter, a search, verses with overlapping filters,
    the chapter again. *)
Definition session : list (sigT Call) :=
  [ existT TChapter (CallChapter 1 []);
    existT TSearchResponse
      (CallSearch {| SearchRequest_Query := "light"; SearchRequest_Language := "en";
                     SearchRequest_Page := 0; SearchRequest_Size := 10 |});
    existT TVerses (CallVerses 1 overlappingOpts);
    existT TChapter (CallChapter 1 []) ].

(** The bootstrapped stub world with the database closed. *)
Definition closedWorld : World nat :=
  {| w_heap := []; w_api := 0%nat; w_trace := [];
     w_db := {| opened := false; readOnly := false; root := root (w_db (bootstrapped [])) |} |}.

(** The bootstrapped stub world whose recitations bucket holds the encoding
    of the empty list under key "0". *)
Definition cachedWorld : World nat :=
  {| w_heap := []; w_api := 0%nat; w_trace := []; w_db := storeWith "[]" |}.

(** ** More of the client: requests, conversions, [strconv.Atoi] *)

(** Whether a byte occurs in a string. *)
Fixpoint occurs (a : Ascii.ascii) (s : string) : bool :=
  match s with
  | EmptyString => false
  | String b s' => if Ascii.eqb a b then true else occurs a s'
  end.

Definition minInt : Z := - 2 ^ 63.
Definition maxInt : Z := 2 ^ 63 - 1.

(** [strconv.Atoi] on a 64-bit platform: an optional sign, then one or
    more decimal digits, the value within the range of [int].  Its error
    is only ever compared with nil, so the result is an [option]. *)
Definition Atoi (s : string) : option Z :=
  match s with
  | EmptyString => None
  | String c s' =>
      let '(neg, digits) :=
        if Ascii.eqb c "-"%char then (true, s')
        else if Ascii.eqb c "+"%char then (false, s')
        else (false, s) in
      match NilZero.uint_of_string digits with
      | None => None
      | Some d =>
          let n := Z.of_uint d in
          let i := if neg then - n else n in
          if (minInt <=? i) && (i <=? maxInt) then Some i else None
      end
  end.

(** [strings.Split(s, sep)] for a separator of one byte. *)
Fixpoint Split (s : string) (sep : Ascii.ascii) : list string :=
  match s with
  | EmptyString => [EmptyString]
  | String c s' =>
      if Ascii.eqb c sep then EmptyString :: Split s' sep
      else match Split s' sep with
           | x :: xs => String c x :: xs
           | [] => [String c EmptyString]
           end
  end.

(** [apiJuz.VerseMapping] is a Go map; here it is the list of its entries
    in the order in which [range] visits them. *)
Record apiJuz := {
  apiJuz_ID : Z;
  apiJuz_JuzNumber : Z;
  apiJuz_VerseMapping : list (string * string) }.

(** The closure [strToInt] of [convertAPIJuzToJuz]. *)
Definition strToInt (s : string) : Z :=
  match Atoi s with
  | Some i => i
  | None => -1
  end.

(** The body of the loop of [convertAPIJuzToJuz]: the mapping it appends,
    [None] where it [continue]s. *)
Definition verseMapping (chapterID ayaat : string) : option JuzMapping :=
  match Split ayaat "-"%char with
  | [startVerse; endVerse] =>
      Some {| JuzMapping_ChapterID := strToInt chapterID;
              JuzMapping_StartVerse := strToInt startVerse;
              JuzMapping_EndVerse := strToInt endVerse |}
  | _ => None
  end.

Definition convertAPIJuzToJuz `{Sort} (j : apiJuz) : Juz :=
  let mappings :=
    fold_left (fun acc kv =>
                 match verseMapping kv.1 kv.2 with
                 | Some m => acc ++ [m]
                 | None => acc
                 end) (apiJuz_VerseMapping j) [] in
  {| Juz_ID := apiJuz_ID j;
     Juz_JuzNumber := apiJuz_JuzNumber j;
     Juz_VerseMapping :=
       sort_Slice (fun a b => JuzMapping_ChapterID a <? JuzMapping_ChapterID b) mappings |}.

(** A request as the client builds it: the path given to [Get] and the
    query parameters in the order of the calls of [QueryParam]. *)
Record Request := {
  Request_path : string;
  Request_query : list (string * string) }.

Definition Get (path : string) : Request :=
  {| Request_path := path; Request_query := [] |}.

Definition QueryParam (k v : string) (r : Request) : Request :=
  {| Request_path := Request_path r; Request_query := Request_query r ++ [(k, v)] |}.

Definition applyQueryParams (o : reqOpt) (r : Request) : Request :=
  if reqOpt_languageID o >? 0 then QueryParam "language" (itoa (reqOpt_languageID o)) r
  else r.

(** [versesReqOpt.queryParams]; the two loops read the filters from the
    heap. *)
Definition queryParams (h : heap) (v : versesReqOpt) (r : Request) : Request :=
  let r := if String.eqb (versesReqOpt_Language v) "" then r
           else QueryParam "language" (versesReqOpt_Language v) r in
  let r := if versesReqOpt_Recitation v >? 0
           then QueryParam "recitation" (itoa (versesReqOpt_Recitation v)) r else r in
  let r := if String.eqb (versesReqOpt_TextType v) "" then r
           else QueryParam "text_type" (versesReqOpt_TextType v) r in
  let r := if versesReqOpt_Page v >? 0
           then QueryParam "page" (itoa (versesReqOpt_Page v)) r else r in
  let r := if versesReqOpt_Limit v >? 0
           then QueryParam "limit" (itoa (versesReqOpt_Limit v)) r else r in
  let r := fold_left (fun r media => QueryParam "media[]" (itoa media) r)
             (slice_read h (versesReqOpt_Media v)) r in
  let r := fold_left (fun r translation => QueryParam "translations[]" (itoa translation) r)
             (slice_read h (versesReqOpt_Translations v)) r in
  r.

(** The exchange [req.Success(httpc.StatusOK()).DecodeJSON(&resp).Do(ctx)]
    is the transport's: it answers a request with the decoded body and an
    error.  One response shape per method; of the response of [Verses]
    only the field [Verses] is kept, the code never reads [Meta]. *)
Inductive respTy :=
| RRecitations | RTranslations | RLanguages | RTafsirs | RChapters | RChapter
| RChapterInfo | RVerses | RVerse | RJuzs | RVerseTafsirs | RSearch.

Definition denoteResp (r : respTy) : Type :=
  match r with
  | RRecitations => list Recitation
  | RTranslations => list Translation
  | RLanguages => list Language
  | RTafsirs => list Tafsir
  | RChapters => list apiChapter
  | RChapter => apiChapter
  | RChapterInfo => ChapterInfo
  | RVerses => list Verse
  | RVerse => Verse
  | RJuzs => list apiJuz
  | RVerseTafsirs => list VerseTafsir
  | RSearch => SearchResponse
  end.

Class Transport := {
  Do : forall r : respTy, Request -> denoteResp r * option error }.

Section ClientMethods.
Context `{Sort} `{Transport}.

Definition Client_Recitations (reqOpts : list ReqOptFn)
  : outcome (list Recitation * option error) :=
  let opt := applyOpts reqOpt_zero reqOpts in
  let req := Get "/options/recitations" in
  match Do RRecitations (applyQueryParams opt req) with
  | (_, Some err) => Done ([], Some err)
  | (resp, None) => Done (resp, None)
  end.

Definition Client_Translations (reqOpts : list ReqOptFn)
  : outcome (list Translation * option error) :=
  let opt := applyOpts reqOpt_zero reqOpts in
  let req := Get "/options/translations" in
  c_Translations (Do RTranslations (applyQueryParams opt req)).

Definition Client_Languages (reqOpts : list ReqOptFn)
  : outcome (list Language * option error) :=
  let opt := applyOpts reqOpt_zero reqOpts in
  let req := Get "/options/languages" in
  c_Languages (Do RLanguages (applyQueryParams opt req)).

Definition Client_Tafsiraat (reqOpts : list ReqOptFn)
  : outcome (list Tafsir * option error) :=
  let opt := applyOpts reqOpt_zero reqOpts in
  let req := Get "/options/tafsirs" in
  c_Tafsiraat (Do RTafsirs (applyQueryParams opt req)).

Definition Client_Chapters (reqOpts : list ReqOptFn)
  : outcome (list Chapter * option error) :=
  let opt := applyOpts reqOpt_zero reqOpts in
  let req := Get "/chapters" in
  c_Chapters (Do RChapters (applyQueryParams opt req)).

Definition Client_Chapter (id : Z) (reqOpts : list ReqOptFn)
  : outcome (Chapter * option error) :=
  let opt := applyOpts reqOpt_zero reqOpts in
  let req := Get ("/chapters/" +:+ itoa id) in
  match Do RChapter (applyQueryParams opt req) with
  | (_, Some err) => Done (Chapter_zero, Some err)
  | (resp, None) =>
      ch ← apiChapterToChapter resp;
      Done (ch, None)
  end.

Definition Client_ChapterInfo (id : Z) (reqOpts : list ReqOptFn)
  : outcome (ChapterInfo * option error) :=
  let opt := applyOpts reqOpt_zero reqOpts in
  let req := Get ("/chapters/" +:+ itoa id +:+ "/info") in
  match Do RChapterInfo (applyQueryParams opt req) with
  | (_, Some err) => Done (ChapterInfo_zero, Some err)
  | (resp, None) => Done (resp, None)
  end.

Definition Client_Verses (chapterID : Z) (reqOpts : list VersesReqOptFn) (h : heap)
  : outcome (list Verse * option error) :=
  let opts := applyOpts versesReqOpt_zero reqOpts in
  let req := Get ("/chapters/" +:+ itoa chapterID +:+ "/verses") in
  let req := queryParams h opts req in
  match Do RVerses req with
  | (_, Some err) => Done ([], Some err)
  | (resp, None) => Done (resp, None)
  end.

Definition Client_Verse (chapterID verseID : Z) : outcome (Verse * option error) :=
  let endpoint := "/chapters/" +:+ itoa chapterID +:+ "/verses/" +:+ itoa verseID in
  match Do RVerse (Get endpoint) with
  | (_, Some err) => Done (Verse_zero, Some err)
  | (resp, None) => Done (resp, None)
  end.

Definition Client_Juzzah : outcome (list Juz * option error) :=
  match Do RJuzs (Get "/juzs") with
  | (_, Some err) => Done ([], Some err)
  | (resp, None) => Done (map convertAPIJuzToJuz resp, None)
  end.

Definition Client_VerseTafsir (chapterID verseID : Z) (reqOpts : list VerseTafsirReqOptFn)
  : outcome (list VerseTafsir * option error) :=
  let opts := applyOpts verseTafsirReqOpts_zero reqOpts in
  let endpoint := "/chapters/" +:+ itoa chapterID +:+ "/verses/" +:+ itoa verseID
                  +:+ "/tafsirs" in
  let req := Get endpoint in
  let req := if String.eqb (verseTafsirReqOpts_Tafsir opts) "" then req
             else QueryParam "tafsirs" (verseTafsirReqOpts_Tafsir opts) req in
  match Do RVerseTafsirs req with
  | (_, Some err) => Done ([], Some err)
  | (resp, None) => Done (resp, None)
  end.

Definition Client_Search (query : SearchRequest) : outcome (SearchResponse * option error) :=
  if String.eqb (SearchRequest_Query query) "" then
    Done (SearchResponse_zero, Some (Errorf "no query param provided"))
  else
    let req := QueryParam "q" (SearchRequest_Query query) (Get "/search") in
    let req := if String.eqb (SearchRequest_Language query) "" then req
               else QueryParam "language" (SearchRequest_Language query) req in
    let req := if SearchRequest_Page query >? 0
               then QueryParam "page" (itoa (SearchRequest_Page query)) req else req in
    let req := if SearchRequest_Size query >? 0
               then QueryParam "size" (itoa (SearchRequest_Size query)) req else req in
    match Do RSearch req with
    | (_, Some err) => Done (SearchResponse_zero, Some err)
    | (resp, None) => Done (resp, None)
    end.

(** The client as an implementation of the interface: each call goes to
    the method of that name. *)
Definition Client_call {t : ty} (c : Call t) (h : heap) : outcome (denote t * option error) :=
  match c in Call t return outcome (denote t * option error) with
  | CallRecitations reqOpts => Client_Recitations reqOpts
  | CallTranslations reqOpts => Client_Translations reqOpts
  | CallLanguages reqOpts => Client_Languages reqOpts
  | CallTafsiraat reqOpts => Client_Tafsiraat reqOpts
  | CallChapters reqOpts => Client_Chapters reqOpts
  | CallChapter id reqOpts => Client_Chapter id reqOpts
  | CallChapterInfo id reqOpts => Client_ChapterInfo id reqOpts
  | CallVerses chapterID reqOpts => Client_Verses chapterID reqOpts h
  | CallVerse chapterID verseID => Client_Verse chapterID verseID
  | CallJuzzah => Client_Juzzah
  | CallVerseTafsir chapterID verseID reqOpts => Client_VerseTafsir chapterID verseID reqOpts
  | CallSearch query => Client_Search query
  end.

End ClientMethods.

(** Every call but [Verses]. *)
Definition notVerses {t : ty} (c : Call t) : Prop :=
  match c with
  | CallVerses _ _ => False
  | _ => True
  end.

(** A byte that is a decimal digit. *)
Definition isDigit (a : Ascii.ascii) : bool :=
  match NilEmpty.uint_of_string (String a EmptyString) with
  | Some _ => true
  | None => false
  end.

(** A chapter as the API sends it carries fewer than its two page
    numbers. *)
Definition shortPages (ch : apiChapter) : Prop :=
  (length (apiChapter_Pages ch) < 2)%nat.

(** The textual form in which the API sends a verse mapping. *)
Definition showMapping (m : JuzMapping) : string * string :=
  (itoa (JuzMapping_ChapterID m),
   itoa (JuzMapping_StartVerse m) +:+ "-" +:+ itoa (JuzMapping_EndVerse m)).

(** A mapping whose numbers an [int] holds and whose verses are not
    negative. *)
Definition plainMapping (m : JuzMapping) : Prop :=
  minInt <= JuzMapping_ChapterID m <= maxInt /\
  0 <= JuzMapping_StartVerse m <= maxInt /\
  0 <= JuzMapping_EndVerse m <= maxInt.

(** The error a method of the client returns when the exchange fails with
    [err]: [err] itself, except that [Search] rejects an empty query before
    any exchange. *)
Definition clientError {t : ty} (c : Call t) (err : error) : error :=
  match c with
  | CallSearch query =>
      if String.eqb (SearchRequest_Query query) ""
      then Errorf "no query param provided" else err
  | _ => err
  end.

(** ** Reference transports *)

Definition apiAlFatihah : apiChapter :=
  {| apiChapter_ID := 1; apiChapter_ChapterNumber := 1; apiChapter_BismillahPre := false;
     apiChapter_RevelationOrder := 5; apiChapter_RevelationPlace := "makkah";
     apiChapter_NameArabic := ""; apiChapter_NameComplex := "Al-Fatihah";
     apiChapter_NameSimple := "Al-Fatihah"; apiChapter_VersesCount := 7;
     apiChapter_Pages := [1; 1];
     apiChapter_TranslatedName :=
       {| TranslatedName_LanguageName := "english"; TranslatedName_Name := "The Opener" |} |}.

Definition apiChapter_zero : apiChapter :=
  {| apiChapter_ID := 0; apiChapter_ChapterNumber := 0; apiChapter_BismillahPre := false;
     apiChapter_RevelationOrder := 0; apiChapter_RevelationPlace := "";
     apiChapter_NameArabic := ""; apiChapter_NameComplex := "";
     apiChapter_NameSimple := ""; apiChapter_VersesCount := 0;
     apiChapter_Pages := [];
     apiChapter_TranslatedName := TranslatedName_zero |}.

(** The first juz as the API sends it, its map visited in two orders. *)
Definition firstJuz : apiJuz :=
  {| apiJuz_ID := 1; apiJuz_JuzNumber := 1;
     apiJuz_VerseMapping := [("2", "1-141"); ("1", "1-7")] |}.

Definition firstJuzAgain : apiJuz :=
  {| apiJuz_ID := 1; apiJuz_JuzNumber := 1;
     apiJuz_VerseMapping := [("1", "1-7"); ("2", "1-141")] |}.

(** The body of a response before the decoder has written to it. *)
Definition zeroResp (r : respTy) : denoteResp r :=
  match r with
  | RRecitations => [] | RTranslations => [] | RLanguages => [] | RTafsirs => []
  | RChapters => []
  | RChapter => apiChapter_zero
  | RChapterInfo => ChapterInfo_zero
  | RVerses => []
  | RVerse => Verse_zero
  | RJuzs => [] | RVerseTafsirs => []
  | RSearch => SearchResponse_zero
  end.

(** A transport that knows one chapter and one juz. *)
Definition stubTransport : Transport :=
  {| Do r _ :=
       match r return denoteResp r * option error with
       | RChapters => ([apiAlFatihah], None)
       | RChapter => (apiAlFatihah, None)
       | RJuzs => ([firstJuz], None)
       | r => (zeroResp r, None)
       end |}.

(** A transport whose exchanges all fail. *)
Definition refused : error := ErrUpstream "connection refused".

Definition failingTransport : Transport :=
  {| Do r _ := (zeroResp r, Some refused) |}.

(** A transport that answers [Chapters] with a chapter lacking its page
    numbers. *)
Definition truncatedTransport : Transport :=
  {| Do r _ :=
       match r return denoteResp r * option error with
       | RChapters => ([apiAlFatihah; apiChapter_zero], None)
       | r => (zeroResp r, None)
       end |}.

(** ** The client behind the cache, and an API that echoes its arguments *)

(** [BoltCache(client, db)] with the repository's own [Client] as the
    wrapped API: a call is the method of the client of that name, which
    keeps no state of its own. *)
Definition clientAPI `{Sort} `{Transport} : QuranAPI unit :=
  {| invoke t c h s := (Client_call c h, s) |}.

Definition clientWorld : World unit :=
  {| w_heap := []; w_api := tt; w_trace := []; w_db := w_db (bootstrapped []) |}.

(** The filters a wrapped [Verses] finds when it reads its options. *)
Definition filtersRead (h : heap) (reqOpts : list VersesReqOptFn) : list Z * list Z :=
  let v := applyOpts versesReqOpt_zero reqOpts in
  (slice_read h (versesReqOpt_Media v), slice_read h (versesReqOpt_Translations v)).

Definition echoVerse (i : Z) : Verse :=
  {| Verse_ID := i; Verse_VerseNumber := 0; Verse_ChapterID := 0; Verse_VerseKey := "";
     Verse_TextMadani := ""; Verse_TextIndopak := ""; Verse_TextSimple := "";
     Verse_JuzNumber := 0; Verse_HizbNumber := 0; Verse_RubNumber := 0;
     Verse_Sajdah := ""; Verse_SajdahNumber := 0; Verse_PageNumber := 0;
     Verse_Audio := {| VerseAudio_URL := ""; VerseAudio_Duration := 0;
                       VerseAudio_Segments := []; VerseAudio_Format := "" |};
     Verse_Translations := []; Verse_MediaContents := []; Verse_Words := [] |}.

(** The echo API: [Verses] answers one verse per media id and per
    translation id it was asked for, in the order in which it reads them,
    and logs the two filters; every other operation fails.  Its state is
    the log. *)
Definition echo_invoke (t : ty) (c : Call t) (h : heap) (log : list (list Z * list Z))
  : outcome (denote t * option error) * list (list Z * list Z) :=
  match c in Call t return outcome (denote t * option error) * list (list Z * list Z) with
  | CallVerses _ reqOpts =>
      let '(media, translations) := filtersRead h reqOpts in
      (Done (map echoVerse (media ++ translations), None), log ++ [(media, translations)])
  | CallRecitations _ => (Done ([], Some notStubbed), log)
  | CallTranslations _ => (Done ([], Some notStubbed), log)
  | CallLanguages _ => (Done ([], Some notStubbed), log)
  | CallTafsiraat _ => (Done ([], Some notStubbed), log)
  | CallChapters _ => (Done ([], Some notStubbed), log)
  | CallChapter _ _ => (Done (Chapter_zero, Some notStubbed), log)
  | CallChapterInfo _ _ => (Done (ChapterInfo_zero, Some notStubbed), log)
  | CallVerse _ _ => (Done (Verse_zero, Some notStubbed), log)
  | CallJuzzah => (Done ([], Some notStubbed), log)
  | CallVerseTafsir _ _ _ => (Done ([], Some notStubbed), log)
  | CallSearch _ => (Done (SearchResponse_zero, Some notStubbed), log)
  end.

Definition echoAPI : QuranAPI (list (list Z * list Z)) := {| invoke := echo_invoke |}.

Definition echoWorld (h : heap) : World (list (list Z * list Z)) :=
  {| w_heap := h; w_api := []; w_trace := []; w_db := w_db (bootstrapped []) |}.


(** * Properties *)

(** ** Insertion sort meets the sorting interface *)

Lemma insertSorted_perm {A : Type} (less : A -> A -> bool) (a : A) (x : list A) :
  insertSorted less a x ≡ₚ a :: x.
Proof.
  induction x as [|b x IH]; simpl; [done|].
  destruct (less a b); [done|].
  rewrite IH. apply Permutation_swap.
Qed.

Lemma insertionSort_perm_acc {A : Type} (less : A -> A -> bool) (x acc : list A) :
  fold_left (fun acc a => insertSorted less a acc) x acc ≡ₚ x ++ acc.
Proof.
  revert acc. induction x as [|a x IH]; intros acc; simpl; [done|].
  rewrite IH, insertSorted_perm. by rewrite Permutation_middle.
Qed.

Lemma insertSorted_sorted {A : Type} (key : A -> Z) (a : A) (x : list A) :
  Sorted (fun a b => key a <= key b) x ->
  Sorted (fun a b => key a <= key b) (insertSorted (fun a b => key a <? key b) a x).
Proof.
  induction 1 as [|b x Hx IH Hb]; simpl.
  - repeat constructor.
  - destruct (Z.ltb_spec (key a) (key b)) as [Hlt|Hge].
    + constructor; [by constructor|]. constructor. lia.
    + constructor; [done|].
      destruct Hb as [|c x Hbc]; simpl in *.
      * constructor. done.
      * destruct (key a <? key c); constructor; done.
Qed.

Lemma insertionSort_sorted_acc {A : Type} (key : A -> Z) (x acc : list A) :
  Sorted (fun a b => key a <= key b) acc ->
  Sorted (fun a b => key a <= key b)
    (fold_left (fun acc a => insertSorted (fun a b => key a <? key b) a acc) x acc).
Proof.
  revert acc. induction x as [|a x IH]; intros acc Hacc; simpl; [done|].
  apply IH. by apply insertSorted_sorted.
Qed.

Lemma insertionSorter_laws : @SortLaws insertionSorter.
Proof.
  split; simpl; intros.
  - unfold insertionSort. rewrite insertionSort_perm_acc. by rewrite app_nil_r.
  - unfold insertionSort. apply insertionSort_sorted_acc. constructor.
Qed.

(** ** Sorting integers, and slices in the heap *)

Section SortingInts.
Context `{SortLaws}.

Lemma sort_Slice_ints_sorted (x : list Z) : Sorted Z.le (sort_Slice Z.ltb x).
Proof. exact (sort_Slice_sorted Z (fun a => a) x). Qed.

(** The ascending arrangement of a bag of integers is unique, so the
    result of sorting does not depend on the order of the input. *)
Lemma sort_Slice_ints_perm_eq (x y : list Z) :
  x ≡ₚ y -> sort_Slice Z.ltb x = sort_Slice Z.ltb y.
Proof.
  intros Hxy. apply (Sorted_unique Z.le); try apply sort_Slice_ints_sorted.
  by rewrite !sort_Slice_perm.
Qed.

Lemma sort_Slice_ints_fixed (x : list Z) :
  Sorted Z.le x -> sort_Slice Z.ltb x = x.
Proof.
  intros Hx. apply (Sorted_unique Z.le); [apply sort_Slice_ints_sorted|done|].
  apply sort_Slice_perm.
Qed.

Lemma sort_Slice_ints_idem (x : list Z) :
  sort_Slice Z.ltb (sort_Slice Z.ltb x) = sort_Slice Z.ltb x.
Proof. apply sort_Slice_ints_fixed, sort_Slice_ints_sorted. Qed.

Lemma sort_Slice_length {A : Type} (less : A -> A -> bool) (x : list A) :
  length (sort_Slice less x) = length x.
Proof. apply Permutation_length, sort_Slice_perm. Qed.

End SortingInts.

Lemma slice_read_length (h : heap) (s : slice) :
  slice_wf h s -> length (slice_read h s) = slice_len s.
Proof.
  unfold slice_wf, slice_read. intros Hwf.
  rewrite length_take, length_drop. lia.
Qed.

Lemma slice_write_length (h : heap) (s : slice) (x : list Z) :
  slice_wf h s -> length x = slice_len s -> length (slice_write h s x) = length h.
Proof.
  unfold slice_wf, slice_write. intros Hwf Hx.
  rewrite !length_app, length_take, length_drop. lia.
Qed.

Lemma slice_read_write (h : heap) (s : slice) (x : list Z) :
  slice_wf h s -> length x = slice_len s -> slice_read (slice_write h s x) s = x.
Proof.
  unfold slice_wf, slice_read, slice_write. intros Hwf Hx.
  rewrite drop_app_length'; [|rewrite length_take; lia].
  rewrite take_app_length'; [done|lia].
Qed.

(** Writing one window leaves every window disjoint from it as it was. *)
Lemma slice_read_write_disjoint (h : heap) (s s' : slice) (x : list Z) :
  slice_wf h s -> slice_wf h s' -> slice_disjoint s s' -> length x = slice_len s ->
  slice_read (slice_write h s x) s' = slice_read h s'.
Proof.
  unfold slice_wf, slice_read, slice_write, slice_disjoint. intros Hwf Hwf' Hd Hx.
  apply list_eq. intros i.
  rewrite !lookup_take, !lookup_drop.
  destruct (decide (i < slice_len s')%nat) as [Hi|Hi]; [|done].
  destruct Hd as [Hd|Hd].
  - rewrite lookup_app_r; [|rewrite length_take; lia].
    rewrite lookup_app_r; [|rewrite length_take; lia].
    rewrite lookup_drop, length_take. f_equal. lia.
  - rewrite lookup_app_l; [|rewrite length_take; lia].
    rewrite lookup_take. destruct (decide _); [done|lia].
Qed.

(** ** The cache key of [Verses] *)

Lemma slice_write_read (h : heap) (s : slice) :
  slice_wf h s -> slice_write h s (slice_read h s) = h.
Proof.
  unfold slice_wf, slice_write, slice_read. intros Hwf.
  rewrite <- drop_drop. by rewrite !take_drop.
Qed.

Section Key.
Context `{SortLaws} `{Gob}.

Lemma sort_Ints_length (h : heap) (s : slice) :
  slice_wf h s -> length (sort_Ints s h) = length h.
Proof.
  intros Hwf. unfold sort_Ints. apply slice_write_length; [done|].
  by rewrite sort_Slice_length, slice_read_length.
Qed.

Lemma sort_Ints_wf (h : heap) (s s' : slice) :
  slice_wf h s -> slice_wf h s' -> slice_wf (sort_Ints s h) s'.
Proof. intros Hwf Hwf'. unfold slice_wf. by rewrite sort_Ints_length. Qed.

Lemma sort_Ints_read (h : heap) (s : slice) :
  slice_wf h s -> slice_read (sort_Ints s h) s = sort_Slice Z.ltb (slice_read h s).
Proof.
  intros Hwf. unfold sort_Ints. apply slice_read_write; [done|].
  by rewrite sort_Slice_length, slice_read_length.
Qed.

Lemma sort_Ints_read_disjoint (h : heap) (s s' : slice) :
  slice_wf h s -> slice_wf h s' -> slice_disjoint s s' ->
  slice_read (sort_Ints s h) s' = slice_read h s'.
Proof.
  intros Hwf Hwf' Hd. unfold sort_Ints. apply slice_read_write_disjoint; try done.
  by rewrite sort_Slice_length, slice_read_length.
Qed.

Lemma sort_Ints_sorted (h : heap) (s : slice) :
  slice_wf h s -> Sorted Z.le (slice_read h s) -> sort_Ints s h = h.
Proof.
  intros Hwf Hs. unfold sort_Ints.
  rewrite sort_Slice_ints_fixed by done. by apply slice_write_read.
Qed.

Lemma slice_disjoint_sym (s s' : slice) : slice_disjoint s s' -> slice_disjoint s' s.
Proof. unfold slice_disjoint. tauto. Qed.

(** On separate filters [key] encodes the canonical option bag, and
    leaves both filters sorted in the heap. *)
Lemma key_separate (v : versesReqOpt) (chapterID : Z) (h : heap) :
  separate h v ->
  let h' := sort_Ints (versesReqOpt_Translations v) (sort_Ints (versesReqOpt_Media v) h) in
  key v chapterID h
    = (gob_EncodeKey {| VerseReqOpts := canonical h v; ChapterID := chapterID |}, h')
  /\ separate h' v
  /\ slice_read h' (versesReqOpt_Media v)
       = sort_Slice Z.ltb (slice_read h (versesReqOpt_Media v))
  /\ slice_read h' (versesReqOpt_Translations v)
       = sort_Slice Z.ltb (slice_read h (versesReqOpt_Translations v)).
Proof.
  intros (HM & HT & Hd) h'.
  assert (HT1 : slice_wf (sort_Ints (versesReqOpt_Media v) h) (versesReqOpt_Translations v))
    by by apply sort_Ints_wf.
  assert (HM1 : slice_wf (sort_Ints (versesReqOpt_Media v) h) (versesReqOpt_Media v))
    by by apply sort_Ints_wf.
  assert (EM : slice_read h' (versesReqOpt_Media v)
               = sort_Slice Z.ltb (slice_read h (versesReqOpt_Media v))).
  { unfold h'. rewrite sort_Ints_read_disjoint; auto using slice_disjoint_sym.
    by apply sort_Ints_read. }
  assert (ET : slice_read h' (versesReqOpt_Translations v)
               = sort_Slice Z.ltb (slice_read h (versesReqOpt_Translations v))).
  { unfold h'. rewrite sort_Ints_read by done.
    by rewrite sort_Ints_read_disjoint. }
  split; [|split; [|split; done]].
  - unfold key. fold h'. do 2 f_equal.
    unfold canonical, versesReqOpt_map. simpl. by rewrite EM, ET.
  - split; [|split; [|done]]; unfold h'; by apply sort_Ints_wf.
Qed.

(** Once [key] has run, running it again on the same option bag changes
    neither the heap nor the bytes. *)
Lemma key_separate_again (v : versesReqOpt) (chapterID : Z) (h : heap) :
  separate h v ->
  key v chapterID (key v chapterID h).2 = key v chapterID h.
Proof.
  intros Hsep.
  destruct (key_separate v chapterID h Hsep) as (E & Hsep' & EM & ET).
  rewrite E. simpl.
  set (h' := sort_Ints _ (sort_Ints _ h)) in *.
  destruct (key_separate v chapterID h' Hsep') as (E' & _ & _ & _).
  rewrite E'. destruct Hsep' as (HM & HT & Hd).
  assert (Hfix : sort_Ints (versesReqOpt_Media v) h' = h').
  { apply sort_Ints_sorted; [done|]. rewrite EM. apply sort_Slice_ints_sorted. }
  rewrite Hfix.
  assert (Hfix' : sort_Ints (versesReqOpt_Translations v) h' = h').
  { apply sort_Ints_sorted; [done|]. rewrite ET. apply sort_Slice_ints_sorted. }
  rewrite Hfix'. do 3 f_equal.
  unfold canonical, versesReqOpt_map. simpl.
  by rewrite EM, ET, !sort_Slice_ints_idem.
Qed.

(** X10. With separate filters [key] only rearranges: each filter holds the
    elements it held before, so the wrapped API is asked for the same sets
    of media and translations as the caller named. *)
Lemma key_separate_elements (v : versesReqOpt) (chapterID : Z) (h : heap) :
  separate h v ->
  slice_read (key v chapterID h).2 (versesReqOpt_Media v)
    ≡ₚ slice_read h (versesReqOpt_Media v) /\
  slice_read (key v chapterID h).2 (versesReqOpt_Translations v)
    ≡ₚ slice_read h (versesReqOpt_Translations v).
Proof.
  intros Hsep.
  destruct (key_separate v chapterID h Hsep) as (E & _ & EM & ET).
  rewrite E. simpl. rewrite EM, ET. split; apply sort_Slice_perm.
Qed.

(** X9. Two option bags with separate filters that agree on the scalar
    options and hold the same filter elements, in any order, derive the
    same bytes. *)
Lemma key_separate_order (v v' : versesReqOpt) (chapterID : Z) (h h' : heap) :
  separate h v -> separate h' v' ->
  versesReqOpt_Language v = versesReqOpt_Language v' ->
  versesReqOpt_Recitation v = versesReqOpt_Recitation v' ->
  versesReqOpt_TextType v = versesReqOpt_TextType v' ->
  versesReqOpt_Page v = versesReqOpt_Page v' ->
  versesReqOpt_Limit v = versesReqOpt_Limit v' ->
  versesReqOpt_Offset v = versesReqOpt_Offset v' ->
  slice_read h (versesReqOpt_Media v) ≡ₚ slice_read h' (versesReqOpt_Media v') ->
  slice_read h (versesReqOpt_Translations v) ≡ₚ slice_read h' (versesReqOpt_Translations v') ->
  (key v chapterID h).1 = (key v' chapterID h').1.
Proof.
  intros Hsep Hsep' E1 E2 E3 E4 E5 E6 PM PT.
  destruct (key_separate v chapterID h Hsep) as (E & _).
  destruct (key_separate v' chapterID h' Hsep') as (E' & _).
  rewrite E, E'. simpl. do 2 f_equal.
  unfold canonical, versesReqOpt_map. simpl.
  rewrite E1, E2, E3, E4, E5, E6.
  by rewrite (sort_Slice_ints_perm_eq _ _ PM), (sort_Slice_ints_perm_eq _ _ PT).
Qed.

End Key.

(** ** The store *)

Lemma bucketAt_app (tx : gmap bytes entry) (p q : list bytes) :
  bucketAt tx (p ++ q) = bucketAt tx p ≫= (fun b => bucketAt b q).
Proof.
  revert tx. induction p as [|name p IH]; intros tx; simpl; [done|].
  destruct (tx !! name) as [[v|b]|]; simpl; auto.
Qed.

Lemma bucketAt_alterAt (f : gmap bytes entry -> gmap bytes entry) (p : list bytes)
  (tx bk : gmap bytes entry) :
  bucketAt tx p = Some bk -> bucketAt (alterAt f p tx) p = Some (f bk).
Proof.
  revert tx. induction p as [|name p IH]; intros tx; simpl.
  - congruence.
  - destruct (tx !! name) as [[v|b]|] eqn:E; try done.
    intros Hb. rewrite lookup_insert_eq. by apply IH.
Qed.

Lemma descend_panic (tx : gmap bytes entry) (ns : list bytes) (msg : string) :
  fold_left (fun b n => b ← b; Bucket_Bucket tx b n) ns (Panic msg) = Panic msg.
Proof. induction ns as [|n ns IH]; simpl; [done|]. apply IH. Qed.

Lemma descend_nil (tx : gmap bytes entry) (ns : list bytes) (q : list bytes) :
  fold_left (fun b n => b ← b; Bucket_Bucket tx b n) ns (Done None) <> Done (Some q).
Proof.
  destruct ns as [|n ns]; simpl; [done|].
  by rewrite descend_panic.
Qed.

Lemma descend_Some (tx : gmap bytes entry) (ns p q : list bytes) :
  is_Some (bucketAt tx p) ->
  fold_left (fun b n => b ← b; Bucket_Bucket tx b n) ns (Done (Some p)) = Done (Some q) ->
  q = p ++ ns /\ is_Some (bucketAt tx q).
Proof.
  revert p. induction ns as [|n ns IH]; intros p Hp; simpl.
  - intros [= <-]. by rewrite app_nil_r.
  - destruct (bucketAt tx (p ++ [n])) eqn:E.
    + intros Hq. apply IH in Hq; [|by rewrite E].
      by rewrite <- app_assoc in Hq.
    + intros Hq. by apply descend_nil in Hq.
Qed.

Lemma descend_exists (tx : gmap bytes entry) (ns p : list bytes) :
  is_Some (bucketAt tx (p ++ ns)) ->
  fold_left (fun b n => b ← b; Bucket_Bucket tx b n) ns (Done (Some p)) = Done (Some (p ++ ns)).
Proof.
  revert p. induction ns as [|n ns IH]; intros p Hp; simpl.
  - by rewrite app_nil_r.
  - assert (Hpn : is_Some (bucketAt tx (p ++ [n]))).
    { rewrite (assoc_L (++) p [n] ns : p ++ n :: ns = (p ++ [n]) ++ ns) in Hp.
      rewrite bucketAt_app in Hp. destruct (bucketAt tx (p ++ [n])); [done|].
      by destruct Hp. }
    destruct Hpn as [b Hb]. rewrite Hb.
    rewrite IH; [by rewrite <- app_assoc|].
    by rewrite <- app_assoc.
Qed.

Lemma openBucket_Some (path : list bytes) (tx : gmap bytes entry) (q : list bytes) :
  path <> [] -> openBucket path tx = Done (Some q) ->
  q = path /\ is_Some (bucketAt tx path).
Proof.
  destruct path as [|bucket ns]; [done|]. intros _. unfold openBucket, Tx_Bucket.
  destruct (bucketAt tx [bucket]) eqn:E.
  - intros Hq. apply descend_Some in Hq; [|by rewrite E].
    destruct Hq as [-> Hq]. done.
  - intros Hq. by apply descend_nil in Hq.
Qed.

Lemma openBucket_exists (path : list bytes) (tx : gmap bytes entry) :
  path <> [] -> is_Some (bucketAt tx path) -> openBucket path tx = Done (Some path).
Proof.
  destruct path as [|bucket ns]; [done|]. intros _ Hp. unfold openBucket, Tx_Bucket.
  assert (Hb : is_Some (bucketAt tx [bucket])).
  { change (bucket :: ns) with ([bucket] ++ ns) in Hp. rewrite bucketAt_app in Hp.
    destruct (bucketAt tx [bucket]); [done|]. by destruct Hp. }
  destruct Hb as [b Hb]. rewrite Hb. by apply (descend_exists tx ns [bucket]).
Qed.

(** A path is either resolved to itself, when every bucket on it exists,
    or the method panics on the nil bucket it got. *)
Lemma openBucket_cases (path : list bytes) (tx : gmap bytes entry) :
  path <> [] ->
  (is_Some (bucketAt tx path) /\ openBucket path tx = Done (Some path)) \/
  (bucketAt tx path = None /\
   (openBucket path tx = Done None \/ exists msg, openBucket path tx = Panic msg)).
Proof.
  intros Hne. destruct (bucketAt tx path) as [bk|] eqn:E.
  - left. split; [done|]. apply openBucket_exists; [done|]. by rewrite E.
  - right. split; [done|].
    destruct (openBucket path tx) as [[q|]|msg] eqn:Eo; eauto.
    apply openBucket_Some in Eo as [_ [bk Hbk]]; [|done]. congruence.
Qed.

(** ** The read and write transactions of a cached method *)

Lemma outcome_bind_Done {A B : Type} (a : A) (f : A -> outcome B) : Done a ≫= f = f a.
Proof. reflexivity. Qed.

Lemma outcome_bind_Panic {A B : Type} (msg : string) (f : A -> outcome B) :
  Panic msg ≫= f = Panic msg.
Proof. reflexivity. Qed.

Section Transactions.
Context `{Gob}.

Lemma Bucket_Get_at (tx bk : gmap bytes entry) (path : list bytes) (k : bytes) :
  bucketAt tx path = Some bk -> Bucket_Get tx (Some path) k = Done (storedBytes bk k).
Proof.
  intros Hbk. unfold Bucket_Get, storedBytes. rewrite Hbk.
  by destruct (bk !! k) as [[v|b]|].
Qed.

Lemma readFn_exists (t : ty) (path : list bytes) (cacheID : bytes)
  (tx bk : gmap bytes entry) :
  path <> [] -> bucketAt tx path = Some bk ->
  readFn t path cacheID tx = Done (valueDecode t (storedBytes bk cacheID)).
Proof.
  intros Hne Hbk. unfold readFn.
  rewrite openBucket_exists by (done || by rewrite Hbk).
  rewrite outcome_bind_Done. by rewrite (Bucket_Get_at tx bk).
Qed.

Lemma readFn_Done (t : ty) (path : list bytes) (cacheID : bytes)
  (tx : gmap bytes entry) (r : denote t * option error) :
  path <> [] -> readFn t path cacheID tx = Done r ->
  exists bk, bucketAt tx path = Some bk /\ r = valueDecode t (storedBytes bk cacheID).
Proof.
  intros Hne. unfold readFn.
  destruct (openBucket_cases path tx Hne) as [[[bk Hbk] ->]|[_ [-> |[msg ->]]]].
  - rewrite outcome_bind_Done, (Bucket_Get_at tx bk) by done. intros [= <-]. eauto.
  - done.
  - done.
Qed.

(** A read transaction that returns either could not begin, or found the
    bucket and decoded what is stored under the key, the empty string
    when nothing is. *)
Lemma DB_View_read (t : ty) (path : list bytes) (cacheID : bytes) (db : DB)
  (r : denote t * option error) :
  path <> [] ->
  DB_View db (zeroValue t) (readFn t path cacheID) = Done r ->
  (opened db = false /\ r = (zeroValue t, Some ErrDatabaseNotOpen)) \/
  (opened db = true /\ exists bk, bucketAt (root db) path = Some bk /\
                                r = valueDecode t (storedBytes bk cacheID)).
Proof.
  intros Hne. unfold DB_View. destruct (opened db); simpl.
  - intros Hr. right. split; [done|]. by apply readFn_Done in Hr.
  - intros [= <-]. by left.
Qed.

Lemma Bucket_Put_at (tx bk : gmap bytes entry) (path : list bytes) (k value : bytes) :
  bucketAt tx path = Some bk ->
  exists tx' err, Bucket_Put tx (Some path) k value = Done (tx', err) /\
    (err = None ->
     tx' = alterAt (fun bk => <[k := Value value]> bk) path tx).
Proof.
  intros Hbk. unfold Bucket_Put. rewrite Hbk.
  repeat case_match; eexists _, _; (split; [reflexivity|]); intros; done.
Qed.

Lemma writeFn_total (t : ty) (path : list bytes) (cacheID : bytes) (v : denote t)
  (tx bk : gmap bytes entry) :
  path <> [] -> bucketAt tx path = Some bk ->
  exists tx' err, writeFn t path cacheID v tx = Done (tx', err) /\
    (err = None -> exists buf, gob_Encode t v = (buf, None) /\
       tx' = alterAt (fun bk => <[cacheID := Value buf]> bk) path tx).
Proof.
  intros Hne Hbk. unfold writeFn, valueEncoder.
  destruct (gob_Encode t v) as [buf [err|]] eqn:E; simpl.
  - eexists _, _. split; [done|]. done.
  - rewrite openBucket_exists by (done || by rewrite Hbk). rewrite outcome_bind_Done.
    destruct (Bucket_Put_at tx bk path cacheID buf Hbk) as (tx' & err & -> & Htx').
    eexists _, _. split; [done|]. intros ->. eauto.
Qed.

(** When the read transaction of a method has returned, its write
    transaction returns too: it cannot meet a nil bucket. *)
Lemma DB_Update_write_total (t : ty) (path : list bytes) (cacheID : bytes) (db : DB)
  (r : denote t * option error) (v : denote t) :
  path <> [] ->
  DB_View db (zeroValue t) (readFn t path cacheID) = Done r ->
  exists db' err, DB_Update db (writeFn t path cacheID v) = Done (db', err) /\
    (err <> None -> db' = db) /\
    (err = None -> exists buf, gob_Encode t v = (buf, None) /\
       db' = {| opened := true; readOnly := false;
                root := alterAt (fun bk => <[cacheID := Value buf]> bk) path (root db) |}).
Proof.
  intros Hne Hr. apply DB_View_read in Hr; [|done].
  destruct Hr as [[Hop _]|[Hop (bk & Hbk & _)]].
  - unfold DB_Update. rewrite Hop. destruct (readOnly db); simpl;
      eexists _, _; (split; [done|]); split; done.
  - unfold DB_Update. rewrite Hop. destruct (readOnly db) eqn:Hro; simpl.
    { eexists _, _; (split; [done|]); split; done. }
    destruct (writeFn_total t path cacheID v (root db) bk Hne Hbk) as (tx' & err & -> & Htx').
    destruct err as [err|].
    + eexists _, _; (split; [done|]); split; done.
    + eexists _, _; (split; [done|]); split; [done|].
      intros _. destruct (Htx' eq_refl) as (buf & E & ->). eauto.
Qed.

(** What a successful write stored is what the next read decodes. *)
Lemma DB_View_after_write `{!GobLaws} (t : ty) (path : list bytes) (cacheID : bytes)
  (db db' : DB) (v : denote t) :
  path <> [] ->
  DB_Update db (writeFn t path cacheID v) = Done (db', None) ->
  DB_View db' (zeroValue t) (readFn t path cacheID) = Done (v, None).
Proof.
  intros Hne. unfold DB_Update.
  destruct (readOnly db) eqn:Hro; [done|].
  destruct (opened db) eqn:Hop; [|done]. simpl.
  destruct (writeFn t path cacheID v (root db)) as [[tx' [err|]]|msg] eqn:Hw; try done.
  intros [= <-]. unfold DB_View. simpl.
  revert Hw. unfold writeFn, valueEncoder.
  destruct (gob_Encode t v) as [buf [err|]] eqn:E; simpl; [by intros [= ]|].
  destruct (openBucket_cases path (root db) Hne) as [[[bk Hbk] ->]|[_ [-> |[msg ->]]]];
    try done.
  rewrite outcome_bind_Done. intros Hput.
  destruct (Bucket_Put_at (root db) bk path cacheID buf Hbk) as (tx'' & err & Hput' & Htx').
  rewrite Hput in Hput'. injection Hput' as <- <-.
  rewrite (Htx' eq_refl).
  erewrite readFn_exists; [|done|by apply bucketAt_alterAt].
  unfold storedBytes. rewrite lookup_insert_eq.
  unfold valueDecode. by rewrite (gob_roundtrip t v buf E).
Qed.

End Transactions.

(** ** The decorated operations *)

Section Decorator.
Context {S : Type} `{Sort} `{Gob} `{QuranAPI S}.

Lemma readThrough_hit {t : ty} (path : list bytes) (cacheID : bytes) (c : Call t)
  (w : World S) (out : denote t) :
  DB_View (w_db w) (zeroValue t) (readFn t path cacheID) = Done (out, None) ->
  readThrough path cacheID c w = (Done (out, None), emit (EvView None) w).
Proof.
  intros Hr. unfold readThrough, mbind, M_bind, db_View. by rewrite Hr.
Qed.

Lemma readThrough_fetch_error {t : ty} (path : list bytes) (cacheID : bytes) (c : Call t)
  (w : World S) (out x : denote t) (e E : error) (s : S) :
  DB_View (w_db w) (zeroValue t) (readFn t path cacheID) = Done (out, Some e) ->
  invoke c (w_heap w) (w_api w) = (Done (x, Some E), s) ->
  readThrough path cacheID c w
    = (Done (zeroValue t, Some E),
       Build_World (w_heap w) (w_db w) s (EvNext c :: EvView (Some e) :: w_trace w)).
Proof.
  intros Hr Hi. unfold readThrough, mbind, M_bind, db_View. rewrite Hr.
  unfold callNext. simpl. by rewrite Hi.
Qed.

Lemma readThrough_fetch_ok {t : ty} (path : list bytes) (cacheID : bytes) (c : Call t)
  (w : World S) (out v : denote t) (e : error) (s : S) (db' : DB) (err : option error) :
  DB_View (w_db w) (zeroValue t) (readFn t path cacheID) = Done (out, Some e) ->
  invoke c (w_heap w) (w_api w) = (Done (v, None), s) ->
  DB_Update (w_db w) (writeFn t path cacheID v) = Done (db', err) ->
  readThrough path cacheID c w
    = (Done (v, None),
       Build_World (w_heap w) db' s
         (EvUpdate err :: EvNext c :: EvView (Some e) :: w_trace w)).
Proof.
  intros Hr Hi Hu. unfold readThrough, mbind, M_bind, db_View. rewrite Hr.
  unfold callNext. simpl. rewrite Hi. unfold db_Update. simpl. by rewrite Hu.
Qed.

Lemma setHeap_same (w : World S) : setHeap (w_heap w) w = w.
Proof. by destruct w. Qed.

(** Every method is the common body run at its [target], or a direct call
    of the wrapped API when it has none. *)
Lemma decorated_target {t : ty} (c : Call t) (w : World S) :
  decorated c w =
    match target c (w_heap w) with
    | (Some (path, cacheID), h') => readThrough path cacheID c (setHeap h' w)
    | (None, h') => callNext c (setHeap h' w)
    end.
Proof.
  destruct c; try (simpl; rewrite ?setHeap_same; reflexivity).
  unfold decorated, target, bc_Verses, mbind, M_bind, onHeap.
  destruct (key _ chapterID (w_heap w)) as [[cacheID [err|]] h']; reflexivity.
Qed.

Lemma target_path {t : ty} (c : Call t) (h h' : heap) (path : list bytes) (cacheID : bytes) :
  target c h = (Some (path, cacheID), h') -> path <> [].
Proof.
  destruct c; try (simpl; by intros [= <- _ _]); try done.
  unfold target.
  destruct (key _ chapterID h) as [[k [err|]] h'']; [done|]. by intros [= <- _ _].
Qed.

(** C2. Error transparency: when a cached operation misses and the wrapped
    API answers with an error [E], the operation returns the zero value
    and exactly [E]; the store is as it was and no write transaction was
    attempted. *)
Theorem error_transparency {t : ty} (c : Call t) (w : World S)
  (path : list bytes) (cacheID : bytes) (h' : heap)
  (out x : denote t) (e E : error) (s : S) :
  target c (w_heap w) = (Some (path, cacheID), h') ->
  DB_View (w_db w) (zeroValue t) (readFn t path cacheID) = Done (out, Some e) ->
  invoke c h' (w_api w) = (Done (x, Some E), s) ->
  exists w',
    decorated c w = (Done (zeroValue t, Some E), w') /\
    w_db w' = w_db w /\
    w_trace w' = EvNext c :: EvView (Some e) :: w_trace w /\
    count isUpdate (w_trace w') = count isUpdate (w_trace w).
Proof.
  intros Ht Hr Hi. rewrite decorated_target, Ht.
  erewrite readThrough_fetch_error; [|exact Hr|exact Hi].
  eexists. split; [reflexivity|]. simpl. done.
Qed.

(** C3. Write-failure isolation: when a cached operation misses and the
    wrapped API answers with a value [v], the write transaction returns
    some error [err] or none, and in both cases the operation returns [v]
    and no error; a failed write leaves the store as it was. *)
Theorem write_failure_isolation {t : ty} (c : Call t) (w : World S)
  (path : list bytes) (cacheID : bytes) (h' : heap)
  (out v : denote t) (e : error) (s : S) :
  target c (w_heap w) = (Some (path, cacheID), h') ->
  DB_View (w_db w) (zeroValue t) (readFn t path cacheID) = Done (out, Some e) ->
  invoke c h' (w_api w) = (Done (v, None), s) ->
  exists db' err,
    DB_Update (w_db w) (writeFn t path cacheID v) = Done (db', err) /\
    decorated c w
      = (Done (v, None),
         Build_World h' db' s (EvUpdate err :: EvNext c :: EvView (Some e) :: w_trace w)) /\
    (err <> None -> db' = w_db w).
Proof.
  intros Ht Hr Hi.
  destruct (DB_Update_write_total t path cacheID (w_db w) _ v (target_path _ _ _ _ _ Ht) Hr)
    as (db' & err & Hu & Hfail & _).
  exists db', err. split; [done|]. split; [|done].
  rewrite decorated_target, Ht.
  by erewrite readThrough_fetch_ok; [|exact Hr|exact Hi|exact Hu].
Qed.

(** C5. Search bypass: every call of the decorated [Search] is one call of
    the wrapped [Search] with the same query, from any world, so however
    often it has been made before; it opens no transaction and returns
    the value and the error of the wrapped call as they are. *)
Theorem search_bypass (query : SearchRequest) (w : World S) :
  decorated (CallSearch query) w = bc_Search query w /\
  bc_Search query w
    = ((invoke (CallSearch query) (w_heap w) (w_api w)).1,
       Build_World (w_heap w) (w_db w) (invoke (CallSearch query) (w_heap w) (w_api w)).2
         (EvNext (CallSearch query) :: w_trace w)) /\
  forall w', (bc_Search query w).2 = w' ->
    count isNext (w_trace w') = Datatypes.S (count isNext (w_trace w)) /\
    count isView (w_trace w') = count isView (w_trace w) /\
    count isUpdate (w_trace w') = count isUpdate (w_trace w) /\
    w_db w' = w_db w.
Proof.
  split; [reflexivity|].
  assert (E : bc_Search query w
    = ((invoke (CallSearch query) (w_heap w) (w_api w)).1,
       Build_World (w_heap w) (w_db w) (invoke (CallSearch query) (w_heap w) (w_api w)).2
         (EvNext (CallSearch query) :: w_trace w))).
  { unfold bc_Search, callNext.
    by destruct (invoke (CallSearch query) (w_heap w) (w_api w)). }
  split; [exact E|]. intros w' <-. rewrite E. simpl. done.
Qed.

End Decorator.

Section KeyFailure.
Context {S : Type} `{SortLaws} `{Gob} `{QuranAPI S}.



End KeyFailure.

Section DecoratorLaws.
Context {S : Type} `{SortLaws} `{GobLaws} `{QuranAPI S}.

(** After a call has derived its key, the same call derives the same key
    again and leaves the heap alone, provided its filters are separate. *)
Lemma target_again {t : ty} (c : Call t) (h h' : heap) (r : option (list bytes * bytes)) :
  filtersSeparate c h -> target c h = (r, h') -> target c h' = (r, h').
Proof.
  destruct c; try (simpl; by intros _ [= <- <-]).
  unfold filtersSeparate, target. intros Hsep.
  pose proof (key_separate_again (applyOpts versesReqOpt_zero reqOpts) chapterID h Hsep) as E.
  destruct (key _ chapterID h) as [[k err] h''] eqn:Ek. simpl in E.
  intros [= <- <-]. by rewrite E.
Qed.

(** X8. Hit after miss, for every cached operation whose filters are
    separate: when a call misses, fetches [v] and its write commits, the
    same call made next returns [v] from the store, and the only thing it
    does is one read transaction. *)
Lemma hit_after_miss_separate {t : ty} (c : Call t) (w : World S)
  (path : list bytes) (cacheID : bytes) (h' : heap)
  (out v : denote t) (e : error) (s : S) (db' : DB) :
  filtersSeparate c (w_heap w) ->
  target c (w_heap w) = (Some (path, cacheID), h') ->
  DB_View (w_db w) (zeroValue t) (readFn t path cacheID) = Done (out, Some e) ->
  invoke c h' (w_api w) = (Done (v, None), s) ->
  DB_Update (w_db w) (writeFn t path cacheID v) = Done (db', None) ->
  let w1 := Build_World h' db' s
              (EvUpdate None :: EvNext c :: EvView (Some e) :: w_trace w) in
  decorated c w = (Done (v, None), w1) /\
  decorated c w1 = (Done (v, None), emit (EvView None) w1).
Proof.
  intros Hsep Ht Hr Hi Hu w1. split.
  - rewrite decorated_target, Ht.
    by erewrite readThrough_fetch_ok; [|exact Hr|exact Hi|exact Hu].
  - rewrite decorated_target. simpl.
    rewrite (target_again c (w_heap w) h' _ Hsep Ht).
    erewrite readThrough_hit; [reflexivity|]. simpl.
    eapply DB_View_after_write; [|exact Hu]. by eapply target_path.
Qed.

(** C9. Unset and zero language filter collapse: for each of
    [Recitations], [Translations], [Languages], [Tafsiraat] and
    [Chapters], a call without options and a call with [LanguageID(0)]
    are cached in the same bucket under the same key, the text "0"; so
    the entry written by the one is the entry read by the other. *)
Theorem unset_zero_filter_collapse (t : ty) (op : list ReqOptFn -> Call t)
  (bucket : string) (w : World S) :
  ScalarKeyed t op bucket ->
  target (op []) (w_heap w) = (Some ([bucket], "0"), w_heap w) /\
  target (op [LanguageID 0]) (w_heap w) = (Some ([bucket], "0"), w_heap w) /\
  forall (out v : denote t) (e : error) (s : S) (db' : DB),
    DB_View (w_db w) (zeroValue t) (readFn t [bucket] "0") = Done (out, Some e) ->
    invoke (op []) (w_heap w) (w_api w) = (Done (v, None), s) ->
    DB_Update (w_db w) (writeFn t [bucket] "0" v) = Done (db', None) ->
    let w1 := Build_World (w_heap w) db' s
                (EvUpdate None :: EvNext (op []) :: EvView (Some e) :: w_trace w) in
    decorated (op []) w = (Done (v, None), w1) /\
    decorated (op [LanguageID 0]) w1 = (Done (v, None), emit (EvView None) w1).
Proof.
  intros Hop.
  assert (T0 : target (op []) (w_heap w) = (Some ([bucket], "0"), w_heap w))
    by (destruct Hop; reflexivity).
  assert (T1 : forall h, target (op [LanguageID 0]) h = (Some ([bucket], "0"), h))
    by (destruct Hop; reflexivity).
  split; [done|]. split; [done|].
  intros out v e s db' Hr Hi Hu w1. split.
  - rewrite decorated_target, T0.
    by erewrite readThrough_fetch_ok; [|exact Hr|exact Hi|exact Hu].
  - rewrite decorated_target, T1. rewrite setHeap_same.
    erewrite readThrough_hit; [reflexivity|]. simpl.
    eapply DB_View_after_write; [done|exact Hu].
Qed.

End DecoratorLaws.

Section Lookup.
Context `{GobLaws}.

(** C6, as the code has it.  Looking up an absent key hands the decoder
    the empty input: the outcome is the decoder's end-of-input error,
    which is also the outcome for a key that is present with an empty
    value.  A stored encoding of a value, an empty collection included,
    decodes to that value without error, which is never the outcome for
    an absent key. *)
Theorem absent_key_lookup (t : ty) (path : list bytes) (cacheID : bytes)
  (db db' : DB) (bk bk' : gmap bytes entry) :
  path <> [] ->
  opened db = true -> bucketAt (root db) path = Some bk -> bk !! cacheID = None ->
  opened db' = true -> bucketAt (root db') path = Some bk' ->
  DB_View db (zeroValue t) (readFn t path cacheID) = Done ((gob_Decode t "").1, Some io_EOF) /\
  (bk' !! cacheID = Some (Value "") ->
   DB_View db' (zeroValue t) (readFn t path cacheID)
     = DB_View db (zeroValue t) (readFn t path cacheID)) /\
  (forall (v : denote t) (buf : bytes),
     gob_Encode t v = (buf, None) -> bk' !! cacheID = Some (Value buf) ->
     DB_View db' (zeroValue t) (readFn t path cacheID) = Done (v, None) /\
     DB_View db' (zeroValue t) (readFn t path cacheID)
       <> DB_View db (zeroValue t) (readFn t path cacheID)).
Proof.
  intros Hne Hop Hbk Habs Hop' Hbk'.
  assert (Eabs : DB_View db (zeroValue t) (readFn t path cacheID)
                 = Done ((gob_Decode t "").1, Some io_EOF)).
  { unfold DB_View. rewrite Hop. simpl. rewrite (readFn_exists t path cacheID _ bk) by done.
    unfold storedBytes. rewrite Habs. unfold valueDecode.
    pose proof (gob_Decode_empty t) as E.
    destruct (gob_Decode t "") as [v [err|]]; simpl in *; congruence. }
  split; [exact Eabs|]. split.
  - intros Hempty. rewrite Eabs. unfold DB_View. rewrite Hop'. simpl.
    rewrite (readFn_exists t path cacheID _ bk') by done.
    unfold storedBytes. rewrite Hempty. unfold valueDecode.
    pose proof (gob_Decode_empty t) as E.
    destruct (gob_Decode t "") as [v [err|]]; simpl in *; congruence.
  - intros v buf Henc Hstored.
    assert (E : DB_View db' (zeroValue t) (readFn t path cacheID) = Done (v, None)).
    { unfold DB_View. rewrite Hop'. simpl.
      rewrite (readFn_exists t path cacheID _ bk') by done.
      unfold storedBytes. rewrite Hstored. unfold valueDecode.
      by rewrite (gob_roundtrip t v buf Henc). }
    split; [exact E|]. rewrite E, Eabs. congruence.
Qed.

End Lookup.

(** ** [BoltCache] *)

Lemma length_zero_empty (s : string) : (Z.of_nat (String.length s) =? 0) = true -> s = "".
Proof.
  destruct s as [|a s]; [done|]. intros Hs. apply Z.eqb_eq in Hs.
  cbn [String.length] in Hs. lia.
Qed.

Lemma extends_refl (tx : gmap bytes entry) : extends tx tx.
Proof. by intros p. Qed.

Lemma extends_trans (tx1 tx2 tx3 : gmap bytes entry) :
  extends tx1 tx2 -> extends tx2 tx3 -> extends tx1 tx3.
Proof. intros H12 H23 p Hp. by apply H23, H12. Qed.

Lemma initialized_extends (tx tx' : gmap bytes entry) (e : string * list string) :
  extends tx tx' -> initialized tx e -> initialized tx' e.
Proof.
  intros Hext [Hb Hns]. split; [by apply Hext|].
  eapply Forall_impl; [exact Hns|]. intros n Hn. by apply Hext.
Qed.

Lemma insert_fresh_bucket (bk : gmap bytes entry) (name : bytes) (q : list bytes) :
  bk !! name = None ->
  is_Some (bucketAt bk q) -> is_Some (bucketAt (<[name := SubBucket ∅]> bk) q).
Proof.
  intros Hfresh. destruct q as [|m q]; simpl; [done|].
  destruct (decide (name = m)) as [<-|Hne].
  - rewrite Hfresh. by intros [? ?].
  - by rewrite lookup_insert_ne.
Qed.

Lemma alterAt_extends (f : gmap bytes entry -> gmap bytes entry) (p : list bytes)
  (tx bk : gmap bytes entry) :
  bucketAt tx p = Some bk ->
  (forall q, is_Some (bucketAt bk q) -> is_Some (bucketAt (f bk) q)) ->
  extends tx (alterAt f p tx).
Proof.
  revert tx. induction p as [|n p IH]; intros tx Hbk Hf q; simpl in *.
  - injection Hbk as ->. apply Hf.
  - destruct (tx !! n) as [[v|b]|] eqn:En; try done.
    destruct q as [|m q]; simpl; [done|].
    destruct (decide (n = m)) as [<-|Hne].
    + rewrite En, lookup_insert_eq. by apply IH.
    + by rewrite lookup_insert_ne.
Qed.

(** [CreateBucketIfNotExists] under an existing bucket never panics; when
    it succeeds the bucket exists and nothing was lost; when the bucket
    was there already the transaction is untouched. *)
Lemma Bucket_CreateBucketIfNotExists_spec (tx bk : gmap bytes entry) (p : list bytes)
  (name : bytes) :
  bucketAt tx p = Some bk ->
  exists tx' b' err,
    Bucket_CreateBucketIfNotExists tx (Some p) name = Done (tx', b', err) /\
    (err = None ->
     b' = Some (p ++ [name]) /\ extends tx tx' /\ is_Some (bucketAt tx' (p ++ [name]))) /\
    (name <> "" -> is_Some (bucketAt tx (p ++ [name])) -> tx' = tx /\ err = None).
Proof.
  intros Hbk. unfold Bucket_CreateBucketIfNotExists. rewrite Hbk.
  destruct (Z.of_nat (String.length name) =? 0) eqn:Hlen.
  { eexists _, _, _. split; [reflexivity|]. split; [done|].
    intros Hne. by apply length_zero_empty in Hlen. }
  assert (Hat : bucketAt tx (p ++ [name]) = bucketAt bk [name])
    by (by rewrite bucketAt_app, Hbk).
  destruct (bk !! name) as [[v|b]|] eqn:En.
  - eexists _, _, _. split; [reflexivity|]. split; [done|].
    intros _. rewrite Hat. simpl. rewrite En. by intros [? ?].
  - eexists _, _, _. split; [reflexivity|]. split; [|done].
    intros _. split; [done|]. split; [apply extends_refl|].
    rewrite Hat. simpl. by rewrite En.
  - eexists _, _, _. split; [reflexivity|]. split.
    + intros _. split; [done|]. split.
      * eapply alterAt_extends; [exact Hbk|]. intros q. by apply insert_fresh_bucket.
      * rewrite bucketAt_app.
        rewrite (bucketAt_alterAt _ p tx bk Hbk). simpl.
        by rewrite lookup_insert_eq.
    + intros _. rewrite Hat. simpl. rewrite En. by intros [? ?].
Qed.

Lemma createNested_spec (bucket : string) (ns : list string) (tx : gmap bytes entry) :
  is_Some (bucketAt tx [bucket]) ->
  exists tx' err,
    createNested (Some [bucket]) ns tx = Done (tx', err) /\
    (err = None ->
     extends tx tx' /\ Forall (fun n => is_Some (bucketAt tx' [bucket; n])) ns) /\
    (Forall (fun n => n <> "") ns ->
     Forall (fun n => is_Some (bucketAt tx [bucket; n])) ns -> tx' = tx /\ err = None).
Proof.
  revert tx. induction ns as [|n ns IH]; intros tx [bk Hbk]; cbn [createNested].
  - eexists _, _. split; [reflexivity|]. split; [|done].
    intros _. split; [apply extends_refl|constructor].
  - destruct (Bucket_CreateBucketIfNotExists_spec tx bk [bucket] n Hbk)
      as (tx1 & b1 & err1 & -> & Hok & Hidem).
    rewrite outcome_bind_Done. destruct err1 as [err1|].
    + eexists _, _. split; [reflexivity|]. split; [done|].
      intros Hnamed Hinit. apply Forall_cons in Hnamed as [Hn _].
      apply Forall_cons in Hinit as [Hi _]. by destruct (Hidem Hn Hi).
    + destruct (Hok eq_refl) as (_ & Hext1 & Hn1).
      destruct (IH tx1) as (tx' & err & -> & Hok' & Hidem').
      { apply Hext1. by rewrite Hbk. }
      eexists _, _. split; [reflexivity|]. split.
      * intros ->. destruct (Hok' eq_refl) as [Hext' Hns].
        split; [by eapply extends_trans|].
        constructor; [|done]. by apply Hext'.
      * intros Hnamed Hinit. apply Forall_cons in Hnamed as [Hn Hnamed].
        apply Forall_cons in Hinit as [Hi Hinit].
        destruct (Hidem Hn Hi) as [-> _]. by apply Hidem'.
Qed.

Lemma createBuckets_spec (bucket : string) (ns : list string) (tx : gmap bytes entry) :
  exists tx' err,
    createBuckets bucket ns tx = Done (tx', err) /\
    (err = None -> extends tx tx' /\ initialized tx' (bucket, ns)) /\
    (named (bucket, ns) -> initialized tx (bucket, ns) -> tx' = tx /\ err = None).
Proof.
  unfold createBuckets, Tx_CreateBucketIfNotExists.
  destruct (Bucket_CreateBucketIfNotExists_spec tx tx [] bucket eq_refl)
    as (tx1 & b1 & err1 & -> & Hok & Hidem).
  rewrite outcome_bind_Done. destruct err1 as [err1|].
  - eexists _, _. split; [reflexivity|]. split; [done|].
    intros [Hn _] [Hi _]. by destruct (Hidem Hn Hi).
  - destruct (Hok eq_refl) as (-> & Hext1 & Hb1). cbn [app] in *.
    destruct (createNested_spec bucket ns tx1 Hb1) as (tx' & err & -> & Hok' & Hidem').
    eexists _, _. split; [reflexivity|]. split.
    + intros ->. destruct (Hok' eq_refl) as [Hext' Hns].
      split; [by eapply extends_trans|]. split; [by apply Hext'|done].
    + intros [Hn Hnamed] [Hi Hinit]. destruct (Hidem Hn Hi) as [-> _].
      by apply Hidem'.
Qed.

Lemma DB_Update_createBuckets (bucket : string) (ns : list string) (db : DB) :
  exists db' err,
    DB_Update db (createBuckets bucket ns) = Done (db', err) /\
    opened db' = opened db /\ readOnly db' = readOnly db /\
    extends (root db) (root db') /\
    (err = None ->
     opened db = true /\ readOnly db = false /\ initialized (root db') (bucket, ns)) /\
    (opened db = true -> readOnly db = false ->
     named (bucket, ns) -> initialized (root db) (bucket, ns) -> db' = db /\ err = None).
Proof.
  unfold DB_Update. destruct db as [op ro tx]; simpl.
  destruct ro; simpl.
  { eexists _, _. split; [reflexivity|]. split_and!; try done. apply extends_refl. }
  destruct op; simpl.
  2:{ eexists _, _. split; [reflexivity|]. split_and!; try done. apply extends_refl. }
  destruct (createBuckets_spec bucket ns tx) as (tx' & err & -> & Hok & Hidem).
  destruct err as [err|].
  - eexists _, _. split; [reflexivity|]. split_and!; try done; try apply extends_refl.
    intros _ _ Hn Hi. by destruct (Hidem Hn Hi).
  - destruct (Hok eq_refl) as [Hext Hinit].
    eexists _, _. split; [reflexivity|]. simpl. split_and!; try done.
    intros _ _ Hn Hi. by destruct (Hidem Hn Hi) as [-> _].
Qed.

Lemma replicate_end {A : Type} (n : nat) (x : A) (l : list A) :
  replicate n x ++ x :: l = replicate (Datatypes.S n) x ++ l.
Proof. induction n as [|n IH]; simpl; [done|]. by rewrite IH. Qed.

Lemma buckets_named : Forall named buckets.
Proof. repeat constructor; done. Qed.

Section Bootstrap.
Context {S : Type}.

Lemma db_Update_entry (bucket : string) (ns : list string) (w : World S) :
  exists db' err,
    db_Update (createBuckets bucket ns) w
      = (Done err, Build_World (w_heap w) db' (w_api w) (EvUpdate err :: w_trace w)) /\
    DB_Update (w_db w) (createBuckets bucket ns) = Done (db', err).
Proof.
  destruct (DB_Update_createBuckets bucket ns (w_db w)) as (db' & err & E & _).
  exists db', err. split; [|done]. unfold db_Update. by rewrite E.
Qed.


(** On a writable store in which every entry is initialized already, the
    loop commits one transaction per entry and changes nothing. *)
Lemma BoltCache_range_again (order : list (string * list string)) (w : World S) :
  opened (w_db w) = true -> readOnly (w_db w) = false ->
  Forall named order -> Forall (initialized (root (w_db w))) order ->
  BoltCache_range order w
    = (Done None,
       Build_World (w_heap w) (w_db w) (w_api w)
         (replicate (length order) (EvUpdate None) ++ w_trace w)).
Proof.
  revert w. induction order as [|[bucket ns] rest IH]; intros w Hop Hro Hnamed Hinit.
  - by destruct w.
  - apply Forall_cons in Hnamed as [Hn Hnamed]. apply Forall_cons in Hinit as [Hi Hinit].
    cbn [BoltCache_range]. unfold mbind, M_bind.
    destruct (db_Update_entry bucket ns w) as (db1 & err & -> & Hu).
    destruct (DB_Update_createBuckets bucket ns (w_db w))
      as (db1' & err' & Hu' & _ & _ & _ & _ & Hidem).
    rewrite Hu in Hu'. injection Hu' as <- <-.
    destruct (Hidem Hop Hro Hn Hi) as [-> ->].
    rewrite IH by done. simpl. by rewrite replicate_end.
Qed.


End Bootstrap.

(** ** The sorted client operations *)

Section ClientSorted.
Context `{SortLaws}.

(** C10. Sorted result order: whenever [Translations], [Languages] or
    [Tafsiraat] returns without error, the slice it returns is the
    response rearranged in ascending order of [ID]; whenever [Chapters]
    returns without error, the slice it returns is the converted chapters
    rearranged in ascending order of [ChapterNumber]. *)
Theorem client_results_sorted :
  (forall (http : list Translation * option error) (r : list Translation),
     c_Translations http = Done (r, None) ->
     Sorted (fun a b => Translation_ID a <= Translation_ID b) r /\ r ≡ₚ http.1) /\
  (forall (http : list Language * option error) (r : list Language),
     c_Languages http = Done (r, None) ->
     Sorted (fun a b => Language_ID a <= Language_ID b) r /\ r ≡ₚ http.1) /\
  (forall (http : list Tafsir * option error) (r : list Tafsir),
     c_Tafsiraat http = Done (r, None) ->
     Sorted (fun a b => Tafsir_ID a <= Tafsir_ID b) r /\ r ≡ₚ http.1) /\
  (forall (http : list apiChapter * option error) (r : list Chapter),
     c_Chapters http = Done (r, None) ->
     Sorted (fun a b => Chapter_ChapterNumber a <= Chapter_ChapterNumber b) r /\
     exists chapters, convertChapters http.1 = Done chapters /\ r ≡ₚ chapters).
Proof.
  split_and!.
  - intros [resp [err|]] r; simpl; [done|]. intros [= <-].
    split; [apply (sort_Slice_sorted _ Translation_ID)|apply sort_Slice_perm].
  - intros [resp [err|]] r; simpl; [done|]. intros [= <-].
    split; [apply (sort_Slice_sorted _ Language_ID)|apply sort_Slice_perm].
  - intros [resp [err|]] r; simpl; [done|]. intros [= <-].
    split; [apply (sort_Slice_sorted _ Tafsir_ID)|apply sort_Slice_perm].
  - intros [resp [err|]] r; unfold c_Chapters; [done|].
    destruct (convertChapters resp) as [chapters|msg] eqn:E; [|done].
    rewrite outcome_bind_Done. intros [= <-]. split.
    + apply (sort_Slice_sorted _ Chapter_ChapterNumber).
    + exists chapters. split; [done|]. apply sort_Slice_perm.
Qed.

(** The three list operations return whenever the exchange succeeded;
    [Chapters] returns when every chapter carries its two page numbers. *)
Lemma client_returns :
  (forall resp, exists r, c_Translations (resp, None) = Done (r, None)) /\
  (forall resp, exists r, c_Languages (resp, None) = Done (r, None)) /\
  (forall resp, exists r, c_Tafsiraat (resp, None) = Done (r, None)) /\
  (forall resp chapters, convertChapters resp = Done chapters ->
     exists r, c_Chapters (resp, None) = Done (r, None)).
Proof.
  split_and!; try (intros resp; eexists; reflexivity).
  intros resp chapters E. unfold c_Chapters. rewrite E. eexists. reflexivity.
Qed.

End ClientSorted.

(** ** The reference codec is lawful *)

Lemma stubGob_laws : @GobLaws stubGob.
Proof.
  split.
  - intros t v b. destruct t; simpl in *;
      try (destruct v; intros [= <-]; reflexivity);
      try (intros [= ]; fail).
    repeat case_decide; intros [= <-]; subst; reflexivity.
  - intros t. reflexivity.
Qed.

(** ** Worked examples *)

Lemma error_transparency_witness :
  exists w',
    @decorated nat insertionSorter stubGob stubAPI _ (CallChapterInfo 1 []) (bootstrapped [])
      = (Done (ChapterInfo_zero, Some notStubbed), w') /\
    w_db w' = w_db (bootstrapped []) /\
    w_trace w' = EvNext (CallChapterInfo 1 []) :: EvView (Some io_EOF)
                   :: w_trace (bootstrapped []) /\
    count isUpdate (w_trace w') = count isUpdate (w_trace (bootstrapped [])).
Proof.
  apply (@error_transparency nat insertionSorter stubGob stubAPI TChapterInfo
           (CallChapterInfo 1 []) (bootstrapped []) ["chapters"; "chapterinfo"] "0:1" []
           ChapterInfo_zero ChapterInfo_zero io_EOF notStubbed 1%nat);
    vm_compute; reflexivity.
Defined.

Lemma write_failure_isolation_witness :
  exists db' err,
    DB_Update (w_db readOnlyWorld)
      (@writeFn stubGob TChapter ["chapters"; "chapter"] "0:1" alFatihah) = Done (db', err) /\
    @decorated nat insertionSorter stubGob stubAPI _ (CallChapter 1 []) readOnlyWorld
      = (Done (alFatihah, None),
         Build_World [] db' 1%nat
           [EvUpdate err; EvNext (CallChapter 1 []); EvView (Some io_EOF)]) /\
    (err <> None -> db' = w_db readOnlyWorld).
Proof.
  apply (@write_failure_isolation nat insertionSorter stubGob stubAPI TChapter
           (CallChapter 1 []) readOnlyWorld ["chapters"; "chapter"] "0:1" []
           Chapter_zero alFatihah io_EOF 1%nat);
    vm_compute; reflexivity.
Defined.

(** On the read-only store the write does fail, and the call still returns
    the chapter. *)
Example write_failure_read_only :
  @decorated nat insertionSorter stubGob stubAPI _ (CallChapter 1 []) readOnlyWorld
    = (Done (alFatihah, None),
       Build_World [] (w_db readOnlyWorld) 1%nat
         [EvUpdate (Some ErrDatabaseReadOnly); EvNext (CallChapter 1 []);
          EvView (Some io_EOF)]).
Proof. vm_compute. reflexivity. Qed.



(** The same run in full: what the wrapped API logged and answered behind
    the failed [key], and what it logs and answers when called directly.
    Filters in an array of their own are not spared: translations
    [3; 1; 2] reach the wrapped API as [1; 2; 3]. *)
Example key_failure_echo :
  let behind := @bc_Verses _ insertionSorter brokenKeyGob echoAPI 1 overlappingOpts
                  (echoWorld ids) in
  let direct := @callNext _ echoAPI _ (CallVerses 1 overlappingOpts) (echoWorld ids) in
  let alone := @bc_Verses _ insertionSorter brokenKeyGob echoAPI 2
                 [VersesTranslations {| slice_off := 0; slice_len := 3 |}]
                 (echoWorld [3; 1; 2]) in
  behind.1 = Done (map echoVerse [2; 1; 1; 3], None) /\
  w_api behind.2 = [([2; 1], [1; 3])] /\
  direct.1 = Done (map echoVerse [2; 3; 3; 1], None) /\
  w_api direct.2 = [([2; 3], [3; 1])] /\
  w_api alone.2 = [([], [1; 2; 3])] /\
  w_db behind.2 = w_db (echoWorld ids) /\
  w_trace behind.2 = [EvNext (CallVerses 1 overlappingOpts)].
Proof. vm_compute. repeat split; reflexivity. Qed.


(** On a fresh database the bootstrap succeeds, and a second run in the
    opposite order leaves the store as the first run made it. *)
Example BoltCache_twice :
  (BoltCache buckets (world0 [])).1 = Done (Some Build_boltCacheMiddleware, None) /\
  (BoltCache (rev buckets) (bootstrapped [])).1 = Done (Some Build_boltCacheMiddleware, None) /\
  w_db (BoltCache (rev buckets) (bootstrapped [])).2 = w_db (bootstrapped []).
Proof. vm_compute. repeat split; reflexivity. Qed.

(** A plain value stored under the name of a nested bucket makes the
    bootstrap fail: no middleware is returned. *)
Example BoltCache_incompatible :
  (BoltCache (S:=nat) buckets
     {| w_heap := []; w_api := 0%nat; w_trace := [];
        w_db := {| opened := true; readOnly := false;
                   root := {[ "chapters" := SubBucket {[ "chapter" := Value "x" ]} ]} |} |}).1
  = Done (None, Some (Errorf ("create nested bucket " +:+ quoted "chapter"
                               +:+ ": incompatible value"))).
Proof. vm_compute. reflexivity. Qed.

Lemma unset_zero_filter_collapse_witness :
  let w := bootstrapped [] in
  let w1 := Build_World [] (storeWith "[]") 1%nat
              (EvUpdate None :: EvNext (CallRecitations []) :: EvView (Some io_EOF)
                 :: w_trace w) in
  @target insertionSorter stubGob _ (CallRecitations []) [] = (Some (["recitations"], "0"), []) /\
  @target insertionSorter stubGob _ (CallRecitations [LanguageID 0]) []
    = (Some (["recitations"], "0"), []) /\
  @decorated nat insertionSorter stubGob stubAPI _ (CallRecitations []) w
    = (Done ([], None), w1) /\
  @decorated nat insertionSorter stubGob stubAPI _ (CallRecitations [LanguageID 0]) w1
    = (Done ([], None), emit (EvView None) w1).
Proof.
  intros w w1.
  destruct (@unset_zero_filter_collapse nat insertionSorter stubGob stubGob_laws stubAPI
              TRecitations CallRecitations bucketRecitations w ScalarKeyed_Recitations)
    as (T0 & T1 & Hshare).
  split; [exact T0|]. split; [exact T1|].
  apply (Hshare [] [] io_EOF 1%nat (storeWith "[]")); vm_compute; reflexivity.
Defined.

Lemma absent_key_lookup_witness :
  DB_View (w_db (bootstrapped [])) [] (@readFn stubGob TRecitations ["recitations"] "0")
    = Done ([], Some io_EOF) /\
  DB_View (storeWith "[]") [] (@readFn stubGob TRecitations ["recitations"] "0")
    = Done ([], None) /\
  DB_View (storeWith "[]") [] (@readFn stubGob TRecitations ["recitations"] "0")
    <> DB_View (w_db (bootstrapped [])) [] (@readFn stubGob TRecitations ["recitations"] "0").
Proof.
  assert (Hbk : bucketAt (root (w_db (bootstrapped []))) ["recitations"] = Some ∅)
    by (vm_compute; reflexivity).
  assert (Hbk' : bucketAt (root (storeWith "[]")) ["recitations"]
                 = Some {[ "0" := Value "[]" ]})
    by (vm_compute; reflexivity).
  destruct (@absent_key_lookup stubGob stubGob_laws TRecitations ["recitations"] "0"
              (w_db (bootstrapped [])) (storeWith "[]") ∅ {[ "0" := Value "[]" ]}
              ltac:(discriminate) eq_refl Hbk eq_refl eq_refl Hbk')
    as (Habs & _ & Hpresent).
  split; [exact Habs|].
  exact (Hpresent [] "[]" eq_refl eq_refl).
Defined.

(** C6, as the claim states it, fails: it is not the case that an absent
    key and a present key whose stored bytes the decoder rejects always
    give different lookup outcomes.  A key that holds the empty value gives
    the very outcome of the absent key. *)
Lemma absent_key_indistinguishable :
  ~ (forall (db db' : DB) (bk bk' : gmap bytes entry) (v : bytes),
       opened db = true -> bucketAt (root db) ["recitations"] = Some bk ->
       bk !! "0" = None ->
       opened db' = true -> bucketAt (root db') ["recitations"] = Some bk' ->
       bk' !! "0" = Some (Value v) ->
       (@valueDecode stubGob TRecitations v).2 <> None ->
       DB_View db [] (@readFn stubGob TRecitations ["recitations"] "0")
         <> DB_View db' [] (@readFn stubGob TRecitations ["recitations"] "0")).
Proof.
  intros Hclaim.
  apply (Hclaim (w_db (bootstrapped [])) (storeWith "") ∅ {[ "0" := Value "" ]} "");
    try (vm_compute; reflexivity).
  vm_compute. discriminate.
Qed.

Lemma client_results_sorted_witness :
  exists r,
    @c_Translations insertionSorter (unsortedTranslations, None) = Done (r, None) /\
    map Translation_ID r = [1; 2; 3] /\
    Sorted (fun a b => Translation_ID a <= Translation_ID b) r /\
    r ≡ₚ unsortedTranslations.
Proof.
  eexists. split; [reflexivity|]. split; [reflexivity|].
  destruct (@client_results_sorted insertionSorter insertionSorter_laws) as (HT & _).
  exact (HT (unsortedTranslations, None) _ eq_refl).
Defined.

(** C4 at an input on which the code departs from it.  With
    [ids = {2, 3, 1}], media [ids[0:2]] and translations [ids[1:3]], the
    first call of [key] sorts [ids[0:2]], then [ids[1:3]], which disturbs
    the media filter again: it encodes media [{2, 1}] and translations
    [{1, 3}] and leaves [ids = {2, 1, 3}].  The second call on the same
    option bag encodes media [{1, 2}] and translations [{2, 3}]: other
    bytes.  The same two filters held in arrays of their own encode as
    media [{2, 3}] and translations [{1, 3}]: other bytes again. *)
Theorem key_overlapping_filters :
  let opt := applyOpts versesReqOpt_zero overlappingOpts in
  let opt' := applyOpts versesReqOpt_zero separateOpts in
  slice_read ids (versesReqOpt_Media opt) = [2; 3] /\
  slice_read ids (versesReqOpt_Translations opt) = [3; 1] /\
  @key insertionSorter stubGob opt 1 ids = (("|0||0|0|0|2,1|1,3|1", None), [2; 1; 3]) /\
  @key insertionSorter stubGob opt 1 [2; 1; 3] = (("|0||0|0|0|1,2|2,3|1", None), [1; 2; 3]) /\
  slice_read separateIds (versesReqOpt_Media opt') = [3; 2] /\
  slice_read separateIds (versesReqOpt_Translations opt') = [1; 3] /\
  @key insertionSorter stubGob opt' 1 separateIds
    = (("|0||0|0|0|2,3|1,3|1", None), [2; 3; 1; 3]).
Proof. vm_compute. repeat split; reflexivity. Qed.

(** C1 at an input on which the code departs from it.  [Verses] called
    with the overlapping filters above misses, fetches and commits its
    write; the same call made next derives another key, misses again and
    invokes the wrapped API a second time. *)
Theorem hit_after_miss_overlapping_filters :
  let c := CallVerses 1 overlappingOpts in
  let w := bootstrapped ids in
  let w1 := (@decorated nat insertionSorter stubGob stubAPI _ c w).2 in
  let w2 := (@decorated nat insertionSorter stubGob stubAPI _ c w1).2 in
  @decorated nat insertionSorter stubGob stubAPI _ c w = (Done ([], None), w1) /\
  w_trace w1 = EvUpdate None :: EvNext c :: EvView (Some io_EOF) :: w_trace w /\
  @decorated nat insertionSorter stubGob stubAPI _ c w1 = (Done ([], None), w2) /\
  w_trace w2 = EvUpdate None :: EvNext c :: EvView (Some io_EOF) :: w_trace w1 /\
  count isNext (w_trace w2) = 2%nat.
Proof. vm_compute. repeat split; reflexivity. Qed.

Lemma hit_after_miss_separate_witness :
  let c := CallChapter 1 [] in
  let w := bootstrapped [] in
  let w1 := (@decorated nat insertionSorter stubGob stubAPI _ c w).2 in
  @decorated nat insertionSorter stubGob stubAPI _ c w = (Done (alFatihah, None), w1) /\
  @decorated nat insertionSorter stubGob stubAPI _ c w1
    = (Done (alFatihah, None), emit (EvView None) w1).
Proof.
  intros c w w1.
  apply (@hit_after_miss_separate nat insertionSorter insertionSorter_laws stubGob stubGob_laws
           stubAPI TChapter c w ["chapters"; "chapter"] "0:1" [] Chapter_zero alFatihah
           io_EOF 1%nat (w_db w1)); try exact I; vm_compute; reflexivity.
Defined.

(** The scenario of the specification: the stub answers [alFatihah] first
    and [changedChapter] afterwards; two calls of [Chapter(1)] through the
    cache both return [alFatihah], and the stub has served one call. *)
Example chapter_twice :
  let c := CallChapter 1 [] in
  let r1 := @decorated nat insertionSorter stubGob stubAPI _ c (bootstrapped []) in
  let r2 := @decorated nat insertionSorter stubGob stubAPI _ c r1.2 in
  r1.1 = Done (alFatihah, None) /\ r2.1 = Done (alFatihah, None) /\
  w_api r2.2 = 1%nat /\ count isNext (w_trace r2.2) = 1%nat.
Proof. vm_compute. repeat split; reflexivity. Qed.

(** The second scenario: the same translations in another order, in a
    slice of their own, hit the entry the first call wrote. *)
Example verses_reordered :
  let r1 := @decorated nat insertionSorter stubGob stubAPI _ versesFirst (bootstrapped twoOrders) in
  let r2 := @decorated nat insertionSorter stubGob stubAPI _ versesSecond r1.2 in
  r1.1 = Done ([], None) /\ r2.1 = Done ([], None) /\
  w_heap r2.2 = [1; 2; 3; 1; 2; 3] /\
  w_api r2.2 = 1%nat /\ count isNext (w_trace r2.2) = 1%nat.
Proof. vm_compute. repeat split; reflexivity. Qed.

(** ** More on the store: missing buckets, and writes that stay local *)

Lemma descend_panic_msg (tx : gmap bytes entry) (ns : list bytes) (acc : outcome bucketPtr)
  (msg : string) :
  (forall m, acc = Panic m -> m = nilDeref) ->
  fold_left (fun b n => b ← b; Bucket_Bucket tx b n) ns acc = Panic msg -> msg = nilDeref.
Proof.
  revert acc. induction ns as [|n ns IH]; intros acc Hacc; simpl; [by apply Hacc|].
  apply IH. intros m. destruct acc as [[p|]|m']; simpl.
  - destruct (bucketAt tx (p ++ [n])); done.
  - by intros [= <-].
  - intros [= <-]. by apply Hacc.
Qed.

Lemma openBucket_panic_msg (path : list bytes) (tx : gmap bytes entry) (msg : string) :
  openBucket path tx = Panic msg -> msg = nilDeref.
Proof.
  destruct path as [|bucket ns]; [done|]. unfold openBucket.
  by apply descend_panic_msg.
Qed.

(** A read whose bucket does not exist dereferences a nil bucket. *)
Lemma readFn_missing `{Gob} (t : ty) (path : list bytes) (cacheID : bytes)
  (tx : gmap bytes entry) :
  path <> [] -> bucketAt tx path = None -> readFn t path cacheID tx = Panic nilDeref.
Proof.
  intros Hne Hmiss. unfold readFn.
  destruct (openBucket_cases path tx Hne) as [[[bk Hbk] _]|[_ [-> |[msg Hmsg]]]].
  - congruence.
  - reflexivity.
  - rewrite Hmsg. by rewrite (openBucket_panic_msg _ _ _ Hmsg).
Qed.

Section MissingBucket.
Context {S : Type} `{Sort} `{Gob} `{QuranAPI S}.

(** X1. On an open store that lacks the bucket of a cached operation, the
    operation panics on the nil bucket inside its read transaction: the
    wrapped API is not called and nothing is written. *)
Theorem missing_bucket_panics {t : ty} (c : Call t) (w : World S)
  (path : list bytes) (cacheID : bytes) (h' : heap) :
  target c (w_heap w) = (Some (path, cacheID), h') ->
  opened (w_db w) = true ->
  bucketAt (root (w_db w)) path = None ->
  decorated c w = (Panic nilDeref, setHeap h' w).
Proof.
  intros Ht Hop Hmiss. rewrite decorated_target, Ht.
  unfold readThrough, mbind, M_bind, db_View, DB_View. simpl.
  rewrite Hop. simpl.
  by rewrite readFn_missing by (done || by eapply target_path).
Qed.

End MissingBucket.

Lemma missing_bucket_panics_witness :
  @decorated nat insertionSorter stubGob stubAPI _ (CallChapter 1 []) (world0 [])
    = (Panic nilDeref, world0 []).
Proof.
  apply (@missing_bucket_panics nat insertionSorter stubGob stubAPI TChapter
           (CallChapter 1 []) (world0 []) ["chapters"; "chapter"] "0:1" []);
    reflexivity.
Defined.

Lemma Bucket_Put_ok (tx tx' bk : gmap bytes entry) (path : list bytes) (k value : bytes) :
  bucketAt tx path = Some bk ->
  Bucket_Put tx (Some path) k value = Done (tx', None) ->
  (forall b, bk !! k <> Some (SubBucket b)) /\
  tx' = alterAt (fun bk => <[k := Value value]> bk) path tx.
Proof.
  intros Hbk. unfold Bucket_Put. rewrite Hbk.
  repeat case_match; intros [= <-]; split; congruence.
Qed.

(** What a committed write transaction of a cached method did: on an open,
    writable store it found the bucket, found no nested bucket under the
    key, and put the encoding of the value there. *)
Lemma DB_Update_write_ok `{Gob} (t : ty) (path : list bytes) (cacheID : bytes)
  (db db' : DB) (v : denote t) :
  path <> [] ->
  DB_Update db (writeFn t path cacheID v) = Done (db', None) ->
  exists bk buf,
    opened db = true /\ readOnly db = false /\
    bucketAt (root db) path = Some bk /\
    (forall b, bk !! cacheID <> Some (SubBucket b)) /\
    gob_Encode t v = (buf, None) /\
    db' = {| opened := true; readOnly := false;
             root := alterAt (fun bk => <[cacheID := Value buf]> bk) path (root db) |}.
Proof.
  intros Hne. unfold DB_Update.
  destruct (readOnly db) eqn:Hro; [done|].
  destruct (opened db) eqn:Hop; [|done]. simpl.
  destruct (writeFn t path cacheID v (root db)) as [[tx' [err|]]|msg] eqn:Hw; try done.
  intros [= <-]. revert Hw. unfold writeFn, valueEncoder.
  destruct (gob_Encode t v) as [buf [err|]] eqn:E; simpl; [by intros [= ]|].
  destruct (openBucket_cases path (root db) Hne) as [[[bk Hbk] ->]|[_ [-> |[msg ->]]]];
    try done.
  rewrite outcome_bind_Done. intros Hput.
  destruct (Bucket_Put_ok _ _ _ _ _ _ Hbk Hput) as [Hfree ->].
  exists bk, buf. by split_and!.
Qed.

(** Putting a value under [k] in the bucket at [p] changes what is stored
    under no other key of any bucket, and creates or removes no bucket. *)
Lemma put_frame (p : list bytes) (k value : bytes) (tx bk : gmap bytes entry)
  (p' : list bytes) (k' : bytes) :
  bucketAt tx p = Some bk ->
  (forall b, bk !! k <> Some (SubBucket b)) ->
  (p', k') <> (p, k) ->
  (fun b => storedBytes b k') <$> bucketAt (alterAt (fun bk => <[k := Value value]> bk) p tx) p'
    = (fun b => storedBytes b k') <$> bucketAt tx p'.
Proof.
  revert tx p'. induction p as [|n p IH]; intros tx p' Hbk Hfree Hne; simpl in *.
  - injection Hbk as ->. destruct p' as [|m q]; simpl.
    + f_equal. unfold storedBytes. rewrite lookup_insert_ne; [done|]. congruence.
    + destruct (decide (k = m)) as [<-|Hkm].
      * rewrite lookup_insert_eq.
        destruct (bk !! k) as [[x|b]|] eqn:E; try done. by destruct (Hfree b).
      * by rewrite lookup_insert_ne.
  - destruct (tx !! n) as [[x|b]|] eqn:En; try done.
    destruct p' as [|m q]; simpl.
    + f_equal. unfold storedBytes.
      destruct (decide (n = k')) as [<-|Hnk].
      * by rewrite lookup_insert_eq, En.
      * by rewrite lookup_insert_ne.
    + destruct (decide (n = m)) as [<-|Hnm].
      * rewrite lookup_insert_eq, En. apply IH; try done. congruence.
      * by rewrite lookup_insert_ne.
Qed.

Section Isolation.
Context `{Gob}.

Lemma readFn_frame (t : ty) (p' : list bytes) (k' : bytes) (tx tx' : gmap bytes entry) :
  p' <> [] ->
  (fun b => storedBytes b k') <$> bucketAt tx' p' = (fun b => storedBytes b k') <$> bucketAt tx p' ->
  readFn t p' k' tx' = readFn t p' k' tx.
Proof.
  intros Hne Heq.
  destruct (bucketAt tx p') as [b|] eqn:E, (bucketAt tx' p') as [b'|] eqn:E'; try done.
  - injection Heq as Heq.
    by rewrite (readFn_exists t p' k' tx b), (readFn_exists t p' k' tx' b'), Heq.
  - by rewrite !readFn_missing.
Qed.

(** X2. Writes stay local: a committed write of one cache entry changes the
    outcome of no read of any other entry, in the same bucket under
    another key or in any other bucket, nested or enclosing. *)
Theorem write_isolated (t t' : ty) (path path' : list bytes) (cacheID cacheID' : bytes)
  (db db' : DB) (v : denote t) :
  path <> [] -> path' <> [] ->
  (path', cacheID') <> (path, cacheID) ->
  DB_Update db (writeFn t path cacheID v) = Done (db', None) ->
  DB_View db' (zeroValue t') (readFn t' path' cacheID')
    = DB_View db (zeroValue t') (readFn t' path' cacheID').
Proof.
  intros Hne Hne' Hother Hu.
  destruct (DB_Update_write_ok t path cacheID db db' v Hne Hu)
    as (bk & buf & Hop & Hro & Hbk & Hfree & _ & ->).
  unfold DB_View. simpl. rewrite Hop. simpl.
  apply readFn_frame; [done|]. by eapply put_frame.
Qed.

End Isolation.

Lemma write_isolated_witness :
  let db := w_db (bootstrapped []) in
  let db' := w_db (@decorated nat insertionSorter stubGob stubAPI _
                     (CallChapter 1 []) (bootstrapped [])).2 in
  DB_View db' ChapterInfo_zero (@readFn stubGob TChapterInfo ["chapters"; "chapterinfo"] "0:1")
    = DB_View db ChapterInfo_zero (@readFn stubGob TChapterInfo ["chapters"; "chapterinfo"] "0:1").
Proof.
  intros db db'.
  apply (@write_isolated stubGob TChapter TChapterInfo ["chapters"; "chapter"]
           ["chapters"; "chapterinfo"] "0:1" "0:1" db db' alFatihah);
    try discriminate.
  vm_compute. reflexivity.
Defined.

(** ** The bootstrapped store is kept *)

Lemma put_extends (tx bk : gmap bytes entry) (p : list bytes) (k value : bytes) :
  bucketAt tx p = Some bk ->
  (forall b, bk !! k <> Some (SubBucket b)) ->
  extends tx (alterAt (fun bk => <[k := Value value]> bk) p tx).
Proof.
  intros Hbk Hfree. eapply alterAt_extends; [exact Hbk|].
  intros [|m q]; simpl; [done|].
  destruct (decide (k = m)) as [<-|Hkm].
  - destruct (bk !! k) as [[x|b]|] eqn:E; try (by intros [? ?]). by destruct (Hfree b).
  - by rewrite lookup_insert_ne.
Qed.

Lemma bootstrappedDB_extends (db db' : DB) :
  extends (root db) (root db') -> bootstrappedDB db -> bootstrappedDB db'.
Proof.
  intros Hext Hb. unfold bootstrappedDB in *.
  eapply Forall_impl; [exact Hb|]. intros e. by apply initialized_extends.
Qed.

Section KeepsBuckets.
Context {S : Type} `{Sort} `{Gob} `{QuranAPI S}.

(** The bucket of every cached operation is one [BoltCache] creates. *)
Lemma target_path_initialized {t : ty} (c : Call t) (h h' : heap) (db : DB)
  (path : list bytes) (cacheID : bytes) :
  bootstrappedDB db -> target c h = (Some (path, cacheID), h') ->
  is_Some (bucketAt (root db) path).
Proof.
  unfold bootstrappedDB, buckets. intros Hb.
  repeat (apply Forall_cons in Hb as [[? ?] Hb]). simpl in *.
  repeat match goal with
         | Hn : Forall _ (_ :: _) |- _ => apply Forall_cons in Hn as [? Hn]
         end.
  destruct c; try (simpl; intros [= <- _ _]; assumption); try done.
  unfold target. destruct (key _ chapterID h) as [[k [err|]] h'']; [done|].
  intros [= <- _ _]. assumption.
Qed.

Lemma DB_View_total (t : ty) (path : list bytes) (cacheID : bytes) (db : DB) :
  path <> [] -> is_Some (bucketAt (root db) path) ->
  exists r, DB_View db (zeroValue t) (readFn t path cacheID) = Done r.
Proof.
  intros Hne [bk Hbk]. unfold DB_View. destruct (opened db); simpl; [|eauto].
  rewrite (readFn_exists t path cacheID _ bk) by done. eauto.
Qed.

(** A panic of the wrapped API after a miss: the method panics with it,
    between its two transactions. *)
Lemma readThrough_fetch_panic {t : ty} (path : list bytes) (cacheID : bytes) (c : Call t)
  (w : World S) (out : denote t) (e : error) (s : S) (msg : string) :
  DB_View (w_db w) (zeroValue t) (readFn t path cacheID) = Done (out, Some e) ->
  invoke c (w_heap w) (w_api w) = (Panic msg, s) ->
  readThrough path cacheID c w
    = (Panic msg,
       Build_World (w_heap w) (w_db w) s (EvNext c :: EvView (Some e) :: w_trace w)).
Proof.
  intros Hr Hi. unfold readThrough, mbind, M_bind, db_View. rewrite Hr.
  unfold callNext. simpl. by rewrite Hi.
Qed.

(** One decorated call on a bootstrapped store returns, unless the wrapped
    API panics in the call it is handed, and then this is the panic; either
    way it leaves the store bootstrapped, as open and as writable as it
    was, with every bucket it had. *)
Lemma decorated_keeps_buckets {t : ty} (c : Call t) (w : World S) :
  bootstrappedDB (w_db w) ->
  exists r w',
    decorated c w = (r, w') /\
    bootstrappedDB (w_db w') /\
    opened (w_db w') = opened (w_db w) /\ readOnly (w_db w') = readOnly (w_db w) /\
    extends (root (w_db w)) (root (w_db w')) /\
    ((exists x, r = Done x) \/
     (exists h s msg, (invoke c h s).1 = Panic msg /\ r = Panic msg)).
Proof.
  intros Hb. rewrite decorated_target.
  destruct (target c (w_heap w)) as [[[path cacheID]|] h'] eqn:Ht.
  2:{ unfold callNext. simpl.
      destruct (invoke c h' (w_api w)) as [r s] eqn:Hi. eexists _, _. split; [reflexivity|].
      simpl. split_and!; try done; [apply extends_refl|].
      destruct r as [x|msg]; [left; by eexists|].
      right. exists h', (w_api w), msg. by rewrite Hi. }
  pose proof (target_path _ _ _ _ _ Ht) as Hne.
  destruct (DB_View_total t path cacheID (w_db w) Hne
              (target_path_initialized c _ _ _ _ _ Hb Ht)) as [[out [e|]] Hr].
  2:{ erewrite readThrough_hit by exact Hr. eexists _, _. split; [reflexivity|].
      simpl. split_and!; try done; [apply extends_refl|]. left. by eexists. }
  destruct (invoke c h' (w_api w)) as [[[v [E|]]|msg] s] eqn:Hi.
  { erewrite readThrough_fetch_error; [|exact Hr|exact Hi].
    eexists _, _. split; [reflexivity|]. simpl.
    split_and!; try done; [apply extends_refl|]. left. by eexists. }
  2:{ erewrite readThrough_fetch_panic; [|exact Hr|exact Hi].
      eexists _, _. split; [reflexivity|]. simpl.
      split_and!; try done; [apply extends_refl|].
      right. exists h', (w_api w), msg. by rewrite Hi. }
  destruct (DB_Update_write_total t path cacheID (w_db w) _ v Hne Hr)
    as (db' & err & Hu & Hfail & _).
  erewrite readThrough_fetch_ok; [|exact Hr|exact Hi|exact Hu].
  eexists _, _. split; [reflexivity|]. simpl.
  destruct err as [err|].
  - rewrite Hfail by done. split_and!; try done; [apply extends_refl|]. left. by eexists.
  - destruct (DB_Update_write_ok t path cacheID _ _ v Hne Hu)
      as (bk & buf & Hop & Hro & Hbk & Hfree & _ & ->). simpl.
    assert (Hext : extends (root (w_db w))
                     (alterAt (fun bk => <[cacheID := Value buf]> bk) path (root (w_db w))))
      by by eapply put_extends.
    split_and!; try done; [by eapply bootstrappedDB_extends; [|exact Hb]|].
    left. by eexists.
Qed.

(** However a sequence of decorated calls on a bootstrapped store ends, the
    store is bootstrapped and as open and as writable as it was; and the
    sequence runs to its end unless the wrapped API panics in one of its
    calls, and then it ends in that panic. *)
Lemma runAll_keeps_buckets (cs : list (sigT Call)) (w w1 : World S) (r : outcome unit) :
  bootstrappedDB (w_db w) ->
  runAll cs w = (r, w1) ->
  bootstrappedDB (w_db w1) /\
  opened (w_db w1) = opened (w_db w) /\ readOnly (w_db w1) = readOnly (w_db w) /\
  (r = Done tt \/
   exists t (c : Call t) h s msg,
     existT t c ∈ cs /\ (invoke c h s).1 = Panic msg /\ r = Panic msg).
Proof.
  revert w. induction cs as [|[t c] cs IH]; intros w Hb.
  - cbn [runAll]. intros [= <- <-]. split_and!; try done. by left.
  - cbn [runAll]. unfold mbind, M_bind.
    destruct (decorated_keeps_buckets c w Hb)
      as (r0 & w0 & -> & Hb0 & Hop0 & Hro0 & _ & [[x ->]|(h & s & msg & Hp & ->)]).
    + intros Hrun. destruct (IH w0 Hb0 Hrun) as (Hb1 & Hop1 & Hro1 & Hr).
      split_and!; try congruence.
      destruct Hr as [->|(t' & c' & h & s & msg & Hin & Hp & ->)]; [by left|].
      right. exists t', c', h, s, msg. split_and!; try done. by apply list_elem_of_further.
    + intros [= <- <-]. split_and!; try done.
      right. exists t, c, h, s, msg. split_and!; try done. apply list_elem_of_here.
Qed.


(** X4. Bootstrap after use is a no-op: on a bootstrapped, open and
    writable store, after any sequence of decorated calls, [BoltCache] in
    any order succeeds and leaves the store, with everything cached in it,
    exactly as it was. *)
Theorem rebootstrap_after_use (cs : list (sigT Call)) (order : list (string * list string))
  (w w1 : World S) :
  bootstrappedDB (w_db w) ->
  opened (w_db w) = true -> readOnly (w_db w) = false ->
  order ≡ₚ buckets ->
  runAll cs w = (Done tt, w1) ->
  exists w2,
    BoltCache order w1 = (Done (Some Build_boltCacheMiddleware, None), w2) /\
    w_db w2 = w_db w1.
Proof.
  intros Hb Hop Hro Hperm Hrun.
  destruct (runAll_keeps_buckets cs w w1 _ Hb Hrun) as (Hb1 & Hop1 & Hro1 & _).
  eexists. unfold BoltCache, mbind, M_bind.
  rewrite BoltCache_range_again.
  - split; reflexivity.
  - congruence.
  - congruence.
  - rewrite Hperm. apply buckets_named.
  - unfold bootstrappedDB in Hb1. by rewrite Hperm.
Qed.

End KeepsBuckets.

Lemma bootstrapped_bootstrappedDB (h : heap) : bootstrappedDB (w_db (bootstrapped h)).
Proof.
  unfold bootstrappedDB, buckets, initialized.
  repeat constructor; vm_compute; eauto.
Qed.


(** The repository's own client behind the cache: when the API sends a
    chapter without its page numbers, [Chapters] through the middleware
    panics as the client does, after the read transaction and before any
    write; the store is as it was. *)
Example cached_Chapters_panics :
  let r := @decorated unit insertionSorter stubGob
             (@clientAPI insertionSorter truncatedTransport) _ (CallChapters []) clientWorld in
  r.1 = Panic "index out of range" /\
  w_db r.2 = w_db clientWorld /\
  w_trace r.2 = [EvNext (CallChapters []); EvView (Some io_EOF)].
Proof. vm_compute. repeat split; reflexivity. Qed.

Lemma rebootstrap_after_use_witness :
  exists w2,
    BoltCache (rev buckets)
      (@runAll nat insertionSorter stubGob stubAPI session (bootstrapped ids)).2
      = (Done (Some Build_boltCacheMiddleware, None), w2) /\
    w_db w2 = w_db (@runAll nat insertionSorter stubGob stubAPI session (bootstrapped ids)).2.
Proof.
  apply (@rebootstrap_after_use nat insertionSorter stubGob stubAPI session (rev buckets)
           (bootstrapped ids)).
  - apply bootstrapped_bootstrappedDB.
  - reflexivity.
  - reflexivity.
  - symmetry. apply Permutation_rev.
  - vm_compute. reflexivity.
Defined.

(** ** Hits, closed stores and failed fetches *)

Section HitsAndFailures.
Context {S : Type} `{Sort} `{Gob} `{QuranAPI S}.

(** X5. A hit is served from the store alone: when the bucket of a cached
    operation holds, under the key of the call, bytes that decode without
    error, the call returns the decoded value, whatever the wrapped API
    would answer now; the wrapped API is not called and the store is not
    written. *)
Theorem hit_serves_stored_value {t : ty} (c : Call t) (w : World S)
  (path : list bytes) (cacheID : bytes) (h' : heap)
  (bk : gmap bytes entry) (buf : bytes) (v : denote t) :
  target c (w_heap w) = (Some (path, cacheID), h') ->
  opened (w_db w) = true ->
  bucketAt (root (w_db w)) path = Some bk ->
  bk !! cacheID = Some (Value buf) ->
  gob_Decode t buf = (v, None) ->
  decorated c w = (Done (v, None), emit (EvView None) (setHeap h' w)).
Proof.
  intros Ht Hop Hbk Hk Hdec. rewrite decorated_target, Ht.
  apply readThrough_hit. unfold DB_View. simpl. rewrite Hop. simpl.
  rewrite (readFn_exists t path cacheID _ bk) by (done || by eapply target_path).
  unfold storedBytes, valueDecode. by rewrite Hk, Hdec.
Qed.

(** X6. A closed store turns a cached operation into a pass-through: the
    read transaction cannot begin, the wrapped API is called once, its
    value is returned when it succeeds and the zero value with its error
    when it fails, and the store is left as it was. *)
Theorem closed_store_pass_through {t : ty} (c : Call t) (w : World S)
  (path : list bytes) (cacheID : bytes) (h' : heap)
  (v : denote t) (e : option error) (s : S) :
  target c (w_heap w) = (Some (path, cacheID), h') ->
  opened (w_db w) = false ->
  invoke c h' (w_api w) = (Done (v, e), s) ->
  exists w',
    decorated c w
      = (Done (match e with Some E => (zeroValue t, Some E) | None => (v, None) end), w') /\
    w_db w' = w_db w /\ w_api w' = s /\
    count isNext (w_trace w') = Datatypes.S (count isNext (w_trace w)).
Proof.
  intros Ht Hop Hi.
  assert (Hr : DB_View (w_db (setHeap h' w)) (zeroValue t) (readFn t path cacheID)
               = Done (zeroValue t, Some ErrDatabaseNotOpen)).
  { unfold DB_View. simpl. by rewrite Hop. }
  rewrite decorated_target, Ht. destruct e as [E|].
  - erewrite readThrough_fetch_error; [|exact Hr|exact Hi].
    eexists. split; [reflexivity|]. simpl. done.
  - assert (Hu : exists err, DB_Update (w_db (setHeap h' w)) (writeFn t path cacheID v)
                             = Done (w_db w, Some err)).
    { unfold DB_Update. simpl. rewrite Hop. destruct (readOnly (w_db w)); simpl; eauto. }
    destruct Hu as [err Hu].
    erewrite readThrough_fetch_ok; [|exact Hr|exact Hi|exact Hu].
    eexists. split; [reflexivity|]. simpl. done.
Qed.

End HitsAndFailures.

Section FailedFetch.
Context {S : Type} `{SortLaws} `{Gob} `{QuranAPI S}.

(** X7. A failed fetch is not remembered, for every cached operation whose
    filters are separate (a condition on [Verses] only): when such an
    operation misses and the wrapped API fails, the same call made next
    finds the same miss and calls the wrapped API again, and what it
    returns is decided by that second call of the wrapped API. *)
Theorem failed_fetch_not_cached {t : ty} (c : Call t) (w : World S)
  (path : list bytes) (cacheID : bytes) (h' : heap)
  (out x : denote t) (e E : error) (s : S) :
  filtersSeparate c (w_heap w) ->
  target c (w_heap w) = (Some (path, cacheID), h') ->
  DB_View (w_db w) (zeroValue t) (readFn t path cacheID) = Done (out, Some e) ->
  invoke c h' (w_api w) = (Done (x, Some E), s) ->
  let w1 := Build_World h' (w_db w) s (EvNext c :: EvView (Some e) :: w_trace w) in
  decorated c w = (Done (zeroValue t, Some E), w1) /\
  exists r w2 evs,
    decorated c w1 = (r, w2) /\
    w_trace w2 = evs ++ EvNext c :: EvView (Some e) :: w_trace w1 /\
    w_api w2 = (invoke c h' s).2 /\
    r = match (invoke c h' s).1 with
        | Done (v, None) => Done (v, None)
        | Done (_, Some E') => Done (zeroValue t, Some E')
        | Panic msg => Panic msg
        end.
Proof.
  intros Hsep Ht Hr Hi w1.
  assert (E1 : decorated c w = (Done (zeroValue t, Some E), w1)).
  { rewrite decorated_target, Ht.
    by erewrite readThrough_fetch_error; [|exact Hr|exact Hi]. }
  split; [exact E1|].
  pose proof (target_again c (w_heap w) h' _ Hsep Ht) as Ht1.
  rewrite decorated_target. simpl. rewrite Ht1.
  destruct (invoke c h' s) as [[[v2 [E2|]]|msg] s2] eqn:Hi2.
  - erewrite readThrough_fetch_error; [|exact Hr|exact Hi2].
    eexists _, _, []. split; [reflexivity|]. done.
  - destruct (DB_Update_write_total t path cacheID (w_db w) _ v2 (target_path _ _ _ _ _ Ht) Hr)
      as (db' & err & Hu & _).
    erewrite readThrough_fetch_ok; [|exact Hr|exact Hi2|exact Hu].
    eexists _, _, [_]. split; [reflexivity|]. done.
  - erewrite readThrough_fetch_panic; [|exact Hr|exact Hi2].
    eexists _, _, []. split; [reflexivity|]. done.
Qed.

End FailedFetch.

Lemma hit_serves_stored_value_witness :
  @decorated nat insertionSorter stubGob stubAPI _ (CallRecitations []) cachedWorld
    = (Done ([], None), emit (EvView None) cachedWorld).
Proof.
  apply (@hit_serves_stored_value nat insertionSorter stubGob stubAPI TRecitations
           (CallRecitations []) cachedWorld ["recitations"] "0" []
           {[ "0" := Value "[]" ]} "[]" []);
    vm_compute; reflexivity.
Defined.

Lemma closed_store_pass_through_witness :
  exists w',
    @decorated nat insertionSorter stubGob stubAPI _ (CallChapter 1 []) closedWorld
      = (Done (alFatihah, None), w') /\
    w_db w' = w_db closedWorld /\ w_api w' = 1%nat /\
    count isNext (w_trace w') = Datatypes.S (count isNext (w_trace closedWorld)).
Proof.
  apply (@closed_store_pass_through nat insertionSorter stubGob stubAPI TChapter
           (CallChapter 1 []) closedWorld ["chapters"; "chapter"] "0:1" []
           alFatihah None 1%nat);
    reflexivity.
Defined.

Lemma failed_fetch_not_cached_witness :
  let c := CallChapterInfo 1 [] in
  let w := bootstrapped [] in
  let w1 := Build_World [] (w_db w) 1%nat (EvNext c :: EvView (Some io_EOF) :: w_trace w) in
  @decorated nat insertionSorter stubGob stubAPI _ c w
    = (Done (ChapterInfo_zero, Some notStubbed), w1) /\
  exists r w2 evs,
    @decorated nat insertionSorter stubGob stubAPI _ c w1 = (r, w2) /\
    w_trace w2 = evs ++ EvNext c :: EvView (Some io_EOF) :: w_trace w1 /\
    w_api w2 = 2%nat /\
    r = Done (ChapterInfo_zero, Some notStubbed).
Proof.
  intros c w w1.
  apply (@failed_fetch_not_cached nat insertionSorter insertionSorter_laws stubGob
           stubAPI TChapterInfo c w ["chapters"; "chapterinfo"] "0:1" []
           ChapterInfo_zero ChapterInfo_zero io_EOF notStubbed 1%nat);
    try exact I; vm_compute; reflexivity.
Defined.

(** ** Decimal numerals *)

Lemma to_int_nonnil (i : Z) :
  Z.to_int i <> Decimal.Pos Decimal.Nil /\ Z.to_int i <> Decimal.Neg Decimal.Nil.
Proof.
  destruct i as [|p|p]; simpl; split; try discriminate;
    intros [= E]; by apply (Unsigned.to_uint_nonnil p).
Qed.

Lemma itoa_int_of_string (i : Z) : NilZero.int_of_string (itoa i) = Some (Z.to_int i).
Proof. unfold itoa. destruct (to_int_nonnil i). by apply NilZero.isi. Qed.

Lemma itoa_inj (i j : Z) : itoa i = itoa j -> i = j.
Proof.
  intros E. pose proof (itoa_int_of_string i) as Hi.
  rewrite E, itoa_int_of_string in Hi. injection Hi as Hi.
  by apply DecimalZ.to_int_inj.
Qed.


Lemma occurs_digits (a : ascii) (d : Decimal.uint) :
  isDigit a = false -> occurs a (NilEmpty.string_of_uint d) = false.
Proof.
  intros Ha. induction d; simpl; [done|..];
    match goal with
    | |- context [Ascii.eqb a ?b] =>
        destruct (Ascii.eqb_spec a b) as [->|_]; [by vm_compute in Ha|done]
    end.
Qed.

Lemma occurs_nonnil (a : ascii) (d : Decimal.uint) :
  isDigit a = false -> occurs a (NilZero.string_of_uint d) = false.
Proof.
  intros Ha. destruct d; try by apply (occurs_digits a).
  simpl. destruct (Ascii.eqb_spec a "0") as [->|_]; [by vm_compute in Ha|done].
Qed.

Lemma occurs_itoa (a : ascii) (i : Z) :
  isDigit a = false -> a <> "-"%char -> occurs a (itoa i) = false.
Proof.
  intros Ha Hm. unfold itoa.
  destruct i as [|p|p]; simpl.
  - destruct (Ascii.eqb_spec a "0") as [->|_]; [by vm_compute in Ha|done].
  - by apply occurs_nonnil.
  - destruct (Ascii.eqb_spec a "-") as [->|_]; [done|]. by apply occurs_nonnil.
Qed.

Lemma occurs_itoa_nonneg (a : ascii) (i : Z) :
  isDigit a = false -> 0 <= i -> occurs a (itoa i) = false.
Proof.
  intros Ha Hi. unfold itoa.
  destruct i as [|p|p]; simpl; [|by apply occurs_nonnil|lia].
  destruct (Ascii.eqb_spec a "0") as [->|_]; [by vm_compute in Ha|done].
Qed.

(** ** Splitting at the last separator *)

Lemma occurs_app (a : ascii) (x y : string) :
  occurs a (x +:+ y) = occurs a x || occurs a y.
Proof. induction x as [|b x IH]; simpl; [done|]. by destruct (Ascii.eqb a b). Qed.

Lemma occurs_here (a : ascii) (y : string) : occurs a (String a y) = true.
Proof. simpl. by rewrite Ascii.eqb_refl. Qed.

Lemma app_sep_inj (a : ascii) (x x' y y' : string) :
  occurs a y = false -> occurs a y' = false ->
  x +:+ String a y = x' +:+ String a y' -> x = x' /\ y = y'.
Proof.
  intros Hy Hy'. revert x'.
  induction x as [|b x IH]; intros [|b' x']; simpl; intros E.
  - by injection E as ->.
  - injection E as <- ->. by rewrite occurs_app, occurs_here, orb_true_r in Hy.
  - injection E as -> <-. by rewrite occurs_app, occurs_here, orb_true_r in Hy'.
  - injection E as -> E. destruct (IH _ E) as [-> ->]. done.
Qed.

Lemma string_app_assoc (x y z : string) : (x +:+ y) +:+ z = x +:+ (y +:+ z).
Proof.
  induction x as [|b x IH]; [done|].
  change (String b ((x +:+ y) +:+ z) = String b (x +:+ y +:+ z)). by rewrite IH.
Qed.

Lemma join_two (x y : string) : join [x; y] = x +:+ String ":" y.
Proof. reflexivity. Qed.

Lemma join_three (x y z : string) : join [x; y; z] = (x +:+ String ":" y) +:+ String ":" z.
Proof.
  unfold join. cbn [String.concat]. by rewrite string_app_assoc.
Qed.

Lemma colon_itoa (i : Z) : occurs ":" (itoa i) = false.
Proof. by apply occurs_itoa. Qed.

Lemma join_itoa_inj (x x' : string) (i i' : Z) :
  join [x; itoa i] = join [x'; itoa i'] -> x = x' /\ i = i'.
Proof.
  rewrite !join_two. intros E.
  apply app_sep_inj in E as [-> E]; auto using colon_itoa.
  by apply itoa_inj in E.
Qed.

Lemma join_itoa_itoa_inj (x x' : string) (i i' j j' : Z) :
  join [x; itoa i; itoa j] = join [x'; itoa i'; itoa j'] -> x = x' /\ i = i' /\ j = j'.
Proof.
  rewrite !join_three. intros E.
  apply app_sep_inj in E as [E Ej]; auto using colon_itoa.
  apply app_sep_inj in E as [-> Ei]; auto using colon_itoa.
  apply itoa_inj in Ei, Ej. done.
Qed.

(** ** A cache entry stands for one request *)

Section KeySoundness.
Context `{Sort} `{Gob} `{Transport}.

Lemma reqOpt_languageID_inj (o o' : reqOpt) :
  itoa (reqOpt_languageID o) = itoa (reqOpt_languageID o') -> o = o'.
Proof. destruct o, o'. simpl. by intros ->%itoa_inj. Qed.

(** X11. A cache entry stands for one request.  Two calls other than
    [Verses] that the middleware caches under the same bucket path and the
    same key are calls of the same method, and the client sends the same
    request and returns the same result for both. *)
Theorem same_entry_same_request {t t' : ty} (c : Call t) (c' : Call t')
  (h h1 h' h1' : heap) (path : list bytes) (cacheID : bytes) :
  notVerses c -> notVerses c' ->
  target c h = (Some (path, cacheID), h1) ->
  target c' h' = (Some (path, cacheID), h1') ->
  @existT ty (fun t => outcome (denote t * option error)) t (Client_call c h)
    = existT t' (Client_call c' h').
Proof.
  intros Hc Hc' T T'.
  destruct c, c'; try done;
    apply (f_equal fst) in T, T'; cbn [target fst] in T, T'; try discriminate;
    rewrite <- T in T'; clear T;
    pose proof (f_equal (fmap fst) T') as Ep;
    pose proof (f_equal (fmap snd) T') as Ek; clear T';
    try (vm_compute in Ep; discriminate Ep); clear Ep;
    cbn [fmap option_fmap option_map snd] in Ek; try injection Ek as Ek;
    cbn [Client_call];
    unfold Client_Recitations, Client_Translations, Client_Languages, Client_Tafsiraat,
      Client_Chapters, Client_Chapter, Client_ChapterInfo, Client_Verse, Client_Juzzah,
      Client_VerseTafsir.
  all: try (apply reqOpt_languageID_inj in Ek; by rewrite Ek).
  all: try (apply join_itoa_inj in Ek as [Ek ->]).
  all: try (apply reqOpt_languageID_inj in Ek; by rewrite Ek).
  all: try (apply itoa_inj in Ek as ->; done).
  all: try done.
  apply join_itoa_itoa_inj in Ek as (Ek & -> & ->). by rewrite Ek.
Qed.

End KeySoundness.

(** ** [strconv.Atoi] reads back what [strconv.Itoa] writes *)

Lemma string_of_uint_head (d : Decimal.uint) :
  exists c s, NilZero.string_of_uint d = String c s /\ isDigit c = true.
Proof. destruct d; simpl; eexists _, _; (split; [reflexivity|done]). Qed.

Lemma Atoi_unsigned (d : Decimal.uint) :
  d <> Decimal.Nil -> 0 <= Z.of_uint d <= maxInt ->
  Atoi (NilZero.string_of_uint d) = Some (Z.of_uint d).
Proof.
  intros Hd Hr. pose proof (NilZero.usu d Hd) as E.
  destruct (string_of_uint_head d) as (c & s & Es & Hc). rewrite Es in *.
  unfold Atoi.
  destruct (Ascii.eqb_spec c "-") as [->|_]; [done|].
  destruct (Ascii.eqb_spec c "+") as [->|_]; [done|].
  rewrite E.
  assert (minInt <= Z.of_uint d) by (unfold minInt; lia).
  destruct (Z.leb_spec minInt (Z.of_uint d)); [|lia].
  destruct (Z.leb_spec (Z.of_uint d) maxInt); [done|lia].
Qed.

Lemma of_uint_to_uint (p : positive) : Z.of_uint (Pos.to_uint p) = Z.pos p.
Proof. unfold Z.of_uint. by rewrite Unsigned.of_to. Qed.

Lemma Atoi_itoa (i : Z) : minInt <= i <= maxInt -> Atoi (itoa i) = Some i.
Proof.
  intros Hi. destruct i as [|p|p].
  - reflexivity.
  - unfold itoa. simpl. rewrite <- of_uint_to_uint.
    apply Atoi_unsigned; [apply Unsigned.to_uint_nonnil|].
    rewrite of_uint_to_uint. lia.
  - unfold itoa. simpl. unfold Atoi.
    change (Ascii.eqb "-" "-") with true. cbv iota.
    rewrite NilZero.usu by apply Unsigned.to_uint_nonnil.
    rewrite of_uint_to_uint.
    change (- Z.pos p) with (Z.neg p).
    destruct (Z.leb_spec minInt (Z.neg p)); [|lia].
    destruct (Z.leb_spec (Z.neg p) maxInt); [done|lia].
Qed.

Lemma strToInt_itoa (i : Z) : minInt <= i <= maxInt -> strToInt (itoa i) = i.
Proof. intros Hi. unfold strToInt. by rewrite Atoi_itoa. Qed.

(** ** [strings.Split] *)

Lemma Split_none (sep : ascii) (s : string) : occurs sep s = false -> Split s sep = [s].
Proof.
  induction s as [|c s IH]; simpl; [done|].
  rewrite (Ascii.eqb_sym c sep).
  destruct (Ascii.eqb sep c); [done|]. intros Hs. by rewrite IH.
Qed.

Lemma Split_once (sep : ascii) (x y : string) :
  occurs sep x = false -> occurs sep y = false ->
  Split (x +:+ String sep y) sep = [x; y].
Proof.
  intros Hx Hy. induction x as [|c x IH].
  - change (Split (String sep y) sep = [""; y]). simpl.
    rewrite Ascii.eqb_refl. by rewrite Split_none.
  - change (Split (String c (x +:+ String sep y)) sep = [String c x; y]).
    simpl in *. rewrite (Ascii.eqb_sym c sep).
    destruct (Ascii.eqb sep c); [done|]. by rewrite IH.
Qed.

(** ** Converting a juz *)

Lemma verseMapping_show (m : JuzMapping) :
  plainMapping m -> verseMapping (showMapping m).1 (showMapping m).2 = Some m.
Proof.
  intros (Hc & Hs & He). destruct m as [c s e]. simpl in *.
  unfold verseMapping.
  change (itoa s +:+ "-" +:+ itoa e) with (itoa s +:+ String "-" (itoa e)).
  rewrite Split_once by (apply occurs_itoa_nonneg; [done|lia]).
  by rewrite !strToInt_itoa by (unfold minInt in *; lia).
Qed.

Lemma mappings_fold (entries : list (string * string)) (acc : list JuzMapping) :
  fold_left (fun acc kv =>
               match verseMapping kv.1 kv.2 with
               | Some m => acc ++ [m]
               | None => acc
               end) entries acc
  = acc ++ omap (fun kv => verseMapping kv.1 kv.2) entries.
Proof.
  revert acc. induction entries as [|kv entries IH]; intros acc; simpl.
  - by rewrite app_nil_r.
  - rewrite IH. destruct (verseMapping kv.1 kv.2); [|done]. by rewrite <- app_assoc.
Qed.

Lemma mappings_show (ms : list JuzMapping) :
  Forall plainMapping ms ->
  omap (fun kv => verseMapping kv.1 kv.2) (map showMapping ms) = ms.
Proof.
  induction 1 as [|m ms Hm _ IH]; [done|].
  cbn [map omap list_omap]. rewrite verseMapping_show by done.
  f_equal. exact IH.
Qed.

Section Juz.
Context `{Sort}.

(** X17. A juz whose verse mapping is sent in the API's textual form, each
    entry [chapter -> start-end] with numbers an [int] holds and verses that
    are not negative, converts to those very mappings, handed to
    [sort.Slice] with the comparison by chapter. *)
Theorem juz_round_trip (id n : Z) (ms : list JuzMapping) :
  Forall plainMapping ms ->
  convertAPIJuzToJuz
    {| apiJuz_ID := id; apiJuz_JuzNumber := n; apiJuz_VerseMapping := map showMapping ms |}
  = {| Juz_ID := id; Juz_JuzNumber := n;
       Juz_VerseMapping :=
         sort_Slice (fun a b => JuzMapping_ChapterID a <? JuzMapping_ChapterID b) ms |}.
Proof.
  intros Hms. unfold convertAPIJuzToJuz. simpl.
  by rewrite mappings_fold, mappings_show.
Qed.

End Juz.

Lemma NoDup_fmap_eq {A B : Type} (f : A -> B) (l : list A) (x y : A) :
  NoDup (map f l) -> x ∈ l -> y ∈ l -> f x = f y -> x = y.
Proof.
  induction l as [|a l IH]; simpl; intros Hnd Hx Hy E; [by apply elem_of_nil in Hx|].
  apply NoDup_cons in Hnd as [Ha Hnd].
  apply elem_of_cons in Hx as [->|Hx]; apply elem_of_cons in Hy as [->|Hy]; auto.
  - destruct Ha. rewrite E. by apply (list_elem_of_fmap_2 f).
  - destruct Ha. rewrite <- E. by apply (list_elem_of_fmap_2 f).
Qed.

Section JuzSorted.
Context `{SortLaws}.

(** The mappings [sort.Slice] leaves: in ascending order of chapter, and a
    rearrangement of the entries the loop accepted. *)
Lemma mappings_sorted (entries : list (string * string)) :
  let accepted := omap (fun kv => verseMapping kv.1 kv.2) entries in
  let sorted :=
    sort_Slice (fun a b => JuzMapping_ChapterID a <? JuzMapping_ChapterID b) accepted in
  Sorted (fun a b => JuzMapping_ChapterID a <= JuzMapping_ChapterID b) sorted /\
  sorted ≡ₚ accepted.
Proof.
  split; [apply (sort_Slice_sorted _ JuzMapping_ChapterID)|apply sort_Slice_perm].
Qed.

(** X18. [convertAPIJuzToJuz] keeps the id and the number of the juz; its
    verse mapping is in ascending order of chapter and is a rearrangement
    of the entries the loop accepted, those whose value splits at [-] into
    exactly two parts. *)
Theorem juz_sorted (j : apiJuz) :
  let juz := convertAPIJuzToJuz j in
  Juz_ID juz = apiJuz_ID j /\ Juz_JuzNumber juz = apiJuz_JuzNumber j /\
  Sorted (fun a b => JuzMapping_ChapterID a <= JuzMapping_ChapterID b) (Juz_VerseMapping juz) /\
  Juz_VerseMapping juz ≡ₚ omap (fun kv => verseMapping kv.1 kv.2) (apiJuz_VerseMapping j).
Proof.
  unfold convertAPIJuzToJuz. cbn [Juz_ID Juz_JuzNumber Juz_VerseMapping].
  rewrite mappings_fold. cbn [app].
  split_and!; [done|done|apply mappings_sorted..].
Qed.

(** X19. The order in which [range] visits the map does not show in the
    result, provided the accepted entries have chapter numbers that differ
    from one another: [convertAPIJuzToJuz] then returns the same juz for
    every visiting order. *)
Theorem juz_order_independent (j j' : apiJuz) :
  apiJuz_ID j = apiJuz_ID j' -> apiJuz_JuzNumber j = apiJuz_JuzNumber j' ->
  apiJuz_VerseMapping j ≡ₚ apiJuz_VerseMapping j' ->
  NoDup (map JuzMapping_ChapterID
           (omap (fun kv => verseMapping kv.1 kv.2) (apiJuz_VerseMapping j))) ->
  convertAPIJuzToJuz j = convertAPIJuzToJuz j'.
Proof.
  intros Eid En Hp Hnd.
  destruct (mappings_sorted (apiJuz_VerseMapping j)) as (Hs & Hq).
  destruct (mappings_sorted (apiJuz_VerseMapping j')) as (Hs' & Hq').
  unfold convertAPIJuzToJuz. rewrite !mappings_fold. cbn [app] in *.
  rewrite Eid, En. f_equal.
  set (R := fun a b => JuzMapping_ChapterID a <= JuzMapping_ChapterID b) in *.
  assert (Transitive R) by (intros a b c; unfold R; lia).
  apply (Sorted_unique_strong R); [|done|done|].
  - unfold R. intros x1 x2 Hx1 Hx2 L1 L2.
    rewrite Hq in Hx1. rewrite Hq', <- Hp in Hx2.
    apply (NoDup_fmap_eq JuzMapping_ChapterID _ _ _ Hnd Hx1 Hx2). lia.
  - rewrite Hq, Hq'. by rewrite Hp.
Qed.

End JuzSorted.

(** ** What the client sends and returns *)

Lemma apiChapterToChapter_cases (ch : apiChapter) :
  (shortPages ch /\ apiChapterToChapter ch = Panic "index out of range") \/
  (~ shortPages ch /\ exists c, apiChapterToChapter ch = Done c).
Proof.
  unfold shortPages, apiChapterToChapter.
  destruct (apiChapter_Pages ch) as [|start [|end_ pages]]; simpl.
  - left. split; [lia|done].
  - left. split; [lia|done].
  - right. split; [lia|]. by eexists.
Qed.

Lemma convertChapters_cases (resp : list apiChapter) :
  (Exists shortPages resp /\ convertChapters resp = Panic "index out of range") \/
  (Forall (fun ch => ~ shortPages ch) resp /\
   exists chapters, convertChapters resp = Done chapters /\ length chapters = length resp).
Proof.
  induction resp as [|ch resp IH].
  - right. split; [constructor|]. by exists [].
  - cbn [convertChapters].
    destruct (apiChapterToChapter_cases ch) as [[Hsh ->]|(Hsh & c & ->)].
    + left. split; [by left|done].
    + rewrite outcome_bind_Done.
      destruct IH as [[Hex ->]|(Hall & chapters & -> & Hlen)].
      * left. split; [by right|done].
      * right. split; [by constructor|].
        eexists. rewrite outcome_bind_Done. split; [done|]. simpl. by rewrite Hlen.
Qed.

Section ClientFacts.
Context `{SortLaws} `{Transport}.

(** X16. When the exchange of [Chapters] succeeds, the method panics with
    an index out of range as soon as one chapter of the response carries
    fewer than two page numbers; when every chapter carries them it returns
    as many chapters as the response held, and no error. *)
Theorem Chapters_panics (reqOpts : list ReqOptFn) (resp : list apiChapter) (h : heap) :
  Do RChapters (applyQueryParams (applyOpts reqOpt_zero reqOpts) (Get "/chapters"))
    = (resp, None) ->
  (Exists shortPages resp ->
   Client_call (CallChapters reqOpts) h = Panic "index out of range") /\
  (Forall (fun ch => ~ shortPages ch) resp ->
   exists chapters, Client_call (CallChapters reqOpts) h = Done (chapters, None) /\
                    length chapters = length resp).
Proof.
  intros E. cbn [Client_call]. unfold Client_Chapters, c_Chapters. rewrite E.
  destruct (convertChapters_cases resp) as [[Hex ->]|(Hall & chapters & -> & Hlen)].
  - split; [done|]. intros Hall. apply Exists_exists in Hex as (ch & Hin & Hsh).
    rewrite Forall_forall in Hall. by destruct (Hall ch Hin).
  - split.
    + intros Hex. apply Exists_exists in Hex as (ch & Hin & Hsh).
      rewrite Forall_forall in Hall. by destruct (Hall ch Hin).
    + intros _. rewrite outcome_bind_Done. eexists. split; [done|].
      rewrite <- Hlen. apply Permutation_length, sort_Slice_perm.
Qed.

End ClientFacts.

Section ClientRequests.
Context `{Sort} `{Gob} `{Transport}.

(** X15. When every exchange fails with [err], every method of the client
    returns the zero value of its result and [err]; only [Search] with an
    empty query returns its own error instead.  No method panics. *)
Theorem exchange_error (err : error) {t : ty} (c : Call t) (h : heap) :
  (forall r req, (Do r req).2 = Some err) ->
  Client_call c h = Done (zeroValue t, Some (clientError c err)).
Proof.
  intros Herr.
  assert (Hdo : forall r req, exists body, Do r req = (body, Some err)).
  { intros r req. specialize (Herr r req). destruct (Do r req) as [body e].
    simpl in Herr. subst e. by exists body. }
  destruct c; cbn [Client_call clientError];
    unfold Client_Recitations, Client_Translations, Client_Languages, Client_Tafsiraat,
      Client_Chapters, Client_Chapter, Client_ChapterInfo, Client_Verses, Client_Verse,
      Client_Juzzah, Client_VerseTafsir, Client_Search,
      c_Translations, c_Languages, c_Tafsiraat, c_Chapters;
    try destruct (String.eqb (SearchRequest_Query query) ""); try done;
    match goal with
    | |- context [Do ?r ?req] => destruct (Hdo r req) as [body ->]; done
    end.
Qed.

(** X13. [VersesOffset] reaches no request: [Verses] with the option
    appended does what [Verses] without it does. *)
Theorem offset_not_sent (chapterID i : Z) (reqOpts : list VersesReqOptFn) (h : heap) :
  Client_call (CallVerses chapterID (reqOpts ++ [VersesOffset i])) h
    = Client_call (CallVerses chapterID reqOpts) h.
Proof.
  cbn [Client_call]. unfold Client_Verses, applyOpts. rewrite fold_left_app. reflexivity.
Qed.

(** X14. For the five operations keyed by the language alone, a negative
    [LanguageID] is not sent, so the client does what it does without the
    option; the middleware nevertheless caches the two calls under
    different keys. *)
Theorem nonpositive_language {t : ty} (mk : list ReqOptFn -> Call t) (bucket : string)
  (n : Z) (h : heap) :
  ScalarKeyed t mk bucket -> n < 0 ->
  Client_call (mk [LanguageID n]) h = Client_call (mk []) h /\
  (target (mk [LanguageID n]) h).1 <> (target (mk []) h).1.
Proof.
  intros Hk Hn.
  assert (Hpos : (n >? 0) = false) by lia.
  split.
  - destruct Hk; cbn [Client_call];
      unfold Client_Recitations, Client_Translations, Client_Languages, Client_Tafsiraat,
        Client_Chapters, applyQueryParams; simpl; by rewrite Hpos.
  - destruct Hk; simpl; intros [= E%itoa_inj]; lia.
Qed.

End ClientRequests.

Section VersesBehindCache.
Context `{SortLaws} `{Gob} `{Transport}.

(** X12. Behind the cache the request of [Verses] is canonical.  Two calls
    with separate filters that agree on language, recitation, text type,
    page and limit and name the same media and translations in any order
    make the client, run in the heap [key] leaves behind, send the same
    request and return the same result. *)
Theorem verses_request_canonical (chapterID : Z) (reqOpts reqOpts' : list VersesReqOptFn)
  (h h' : heap) :
  let v := applyOpts versesReqOpt_zero reqOpts in
  let v' := applyOpts versesReqOpt_zero reqOpts' in
  separate h v -> separate h' v' ->
  versesReqOpt_Language v = versesReqOpt_Language v' ->
  versesReqOpt_Recitation v = versesReqOpt_Recitation v' ->
  versesReqOpt_TextType v = versesReqOpt_TextType v' ->
  versesReqOpt_Page v = versesReqOpt_Page v' ->
  versesReqOpt_Limit v = versesReqOpt_Limit v' ->
  slice_read h (versesReqOpt_Media v) ≡ₚ slice_read h' (versesReqOpt_Media v') ->
  slice_read h (versesReqOpt_Translations v) ≡ₚ slice_read h' (versesReqOpt_Translations v') ->
  Client_call (CallVerses chapterID reqOpts) (target (CallVerses chapterID reqOpts) h).2
    = Client_call (CallVerses chapterID reqOpts') (target (CallVerses chapterID reqOpts') h').2.
Proof.
  intros v v' Hsep Hsep' E1 E2 E3 E4 E5 PM PT.
  destruct (key_separate v chapterID h Hsep) as (E & _ & EM & ET).
  destruct (key_separate v' chapterID h' Hsep') as (E' & _ & EM' & ET').
  cbn [target Client_call]. fold v v'. rewrite E, E'.
  destruct (gob_EncodeKey _) as [b e], (gob_EncodeKey _) as [b' e']. cbn [snd].
  unfold Client_Verses, queryParams. fold v v'.
  rewrite EM, ET, EM', ET', E1, E2, E3, E4, E5.
  by rewrite (sort_Slice_ints_perm_eq _ _ PM), (sort_Slice_ints_perm_eq _ _ PT).
Qed.

End VersesBehindCache.

(** ** The properties on the reference instances *)

Lemma same_entry_same_request_witness :
  @existT ty (fun t => outcome (denote t * option error)) TChapter
    (@Client_call insertionSorter stubTransport _ (CallChapter 1 []) [])
  = existT TChapter
      (@Client_call insertionSorter stubTransport _ (CallChapter 1 [LanguageID 0]) []).
Proof.
  apply (@same_entry_same_request insertionSorter stubGob stubTransport
           TChapter TChapter (CallChapter 1 []) (CallChapter 1 [LanguageID 0])
           [] [] [] [] ["chapters"; "chapter"] "0:1");
    try exact I; vm_compute; reflexivity.
Defined.

Lemma juz_round_trip_witness :
  @convertAPIJuzToJuz insertionSorter firstJuz
  = {| Juz_ID := 1; Juz_JuzNumber := 1;
       Juz_VerseMapping :=
         [ {| JuzMapping_ChapterID := 1; JuzMapping_StartVerse := 1; JuzMapping_EndVerse := 7 |};
           {| JuzMapping_ChapterID := 2; JuzMapping_StartVerse := 1;
              JuzMapping_EndVerse := 141 |} ] |}.
Proof.
  apply (@juz_round_trip insertionSorter 1 1
           [ {| JuzMapping_ChapterID := 2; JuzMapping_StartVerse := 1;
                JuzMapping_EndVerse := 141 |};
             {| JuzMapping_ChapterID := 1; JuzMapping_StartVerse := 1;
                JuzMapping_EndVerse := 7 |} ]).
  repeat constructor; vm_compute; discriminate.
Defined.

Lemma juz_sorted_witness :
  Sorted (fun a b => JuzMapping_ChapterID a <= JuzMapping_ChapterID b)
    (Juz_VerseMapping (@convertAPIJuzToJuz insertionSorter firstJuz)).
Proof.
  apply (@juz_sorted insertionSorter insertionSorter_laws firstJuz).
Defined.

Lemma juz_order_independent_witness :
  @convertAPIJuzToJuz insertionSorter firstJuz
  = @convertAPIJuzToJuz insertionSorter firstJuzAgain.
Proof.
  apply (@juz_order_independent insertionSorter insertionSorter_laws firstJuz firstJuzAgain).
  - reflexivity.
  - reflexivity.
  - simpl. apply perm_swap.
  - apply (bool_decide_unpack _). vm_compute. reflexivity.
Defined.

Lemma Chapters_panics_witness :
  @Client_call insertionSorter truncatedTransport _ (CallChapters []) []
  = Panic "index out of range".
Proof.
  apply (proj1 (@Chapters_panics insertionSorter insertionSorter_laws truncatedTransport
                  [] [apiAlFatihah; apiChapter_zero] [] eq_refl)).
  right. left. unfold shortPages. simpl. lia.
Defined.

Lemma exchange_error_witness :
  @Client_call insertionSorter failingTransport _ (CallChapter 1 []) []
  = Done (Chapter_zero, Some refused).
Proof.
  apply (@exchange_error insertionSorter failingTransport refused TChapter
           (CallChapter 1 []) []).
  intros r req. reflexivity.
Defined.

Lemma nonpositive_language_witness :
  @Client_call insertionSorter stubTransport _ (CallRecitations [LanguageID (-1)]) []
  = @Client_call insertionSorter stubTransport _ (CallRecitations []) [] /\
  (@target insertionSorter stubGob _ (CallRecitations [LanguageID (-1)]) []).1
  <> (@target insertionSorter stubGob _ (CallRecitations []) []).1.
Proof.
  apply (@nonpositive_language insertionSorter stubGob stubTransport TRecitations
           CallRecitations bucketRecitations (-1) []).
  - constructor.
  - lia.
Defined.

Lemma verses_request_canonical_witness :
  @Client_call insertionSorter stubTransport _ versesFirst
    (@target insertionSorter stubGob _ versesFirst twoOrders).2
  = @Client_call insertionSorter stubTransport _ versesSecond
      (@target insertionSorter stubGob _ versesSecond twoOrders).2.
Proof.
  apply (@verses_request_canonical insertionSorter insertionSorter_laws stubGob stubTransport
           2 [VersesTranslations {| slice_off := 0; slice_len := 3 |}]
             [VersesTranslations {| slice_off := 3; slice_len := 3 |}] twoOrders twoOrders);
    try reflexivity.
  - unfold separate, slice_wf, slice_disjoint. simpl. lia.
  - unfold separate, slice_wf, slice_disjoint. simpl. lia.
  - vm_compute. etrans; [apply perm_swap|]. apply perm_skip, perm_swap.
Defined.

Lemma key_separate_order_witness :
  (@key insertionSorter stubGob
     (applyOpts versesReqOpt_zero [VersesTranslations {| slice_off := 0; slice_len := 3 |}])
     2 twoOrders).1
  = (@key insertionSorter stubGob
       (applyOpts versesReqOpt_zero [VersesTranslations {| slice_off := 3; slice_len := 3 |}])
       2 twoOrders).1.
Proof.
  apply (@key_separate_order insertionSorter insertionSorter_laws stubGob); try reflexivity.
  - unfold separate, slice_wf, slice_disjoint. simpl. lia.
  - unfold separate, slice_wf, slice_disjoint. simpl. lia.
  - vm_compute. etrans; [apply perm_swap|]. apply perm_skip, perm_swap.
Defined.

Lemma key_separate_elements_witness :
  let v := applyOpts versesReqOpt_zero separateOpts in
  slice_read (@key insertionSorter stubGob v 1 separateIds).2 (versesReqOpt_Media v)
    ≡ₚ slice_read separateIds (versesReqOpt_Media v) /\
  slice_read (@key insertionSorter stubGob v 1 separateIds).2 (versesReqOpt_Translations v)
    ≡ₚ slice_read separateIds (versesReqOpt_Translations v).
Proof.
  intros v.
  apply (@key_separate_elements insertionSorter insertionSorter_laws stubGob v 1 separateIds).
  unfold separate, slice_wf, slice_disjoint. simpl. lia.
Defined.
